(** * Tuple.h: a heterogeneous fixed-size container

    A shallow embedding of [Tuple.h].  The header is a template library, so
    two phases are kept apart:

    - _instantiation_ (compile time): a template applied to its arguments
      either yields a well-formed entity or is ill-formed.  Instantiation is
      a function into [option]: [None] is "the program does not compile".
    - _execution_ (run time): what an instantiated function does to values.
      These are total functions: nothing in the header can fault at run time.

    Tuple objects are modelled as the product of their base-class subobjects
    [tuple_leaf<I, T>], in the order of the base-specifier list, and a
    C++ reference into an object as a pair of a reader and a writer.

    Of the four overloads of [get] and of [tuple_leaf::get], the lvalue and
    the const lvalue ones are embedded.  The rvalue overloads, the defaulted
    assignment operators and the [noexcept] specifications are not; of a
    move construction only the constructed object is described.

    The defaulted default constructor default-initialises the elements: a
    default-constructed tuple may hold indeterminate values, and is kept
    apart from the tuples [get] reads from until it is known to hold
    none.  Value-initialisation ([tuple<Ts...>{}]) is not embedded. *)

From Stdlib Require Import List Arith Lia Bool Eqdep_dec ZArith Ascii PrimFloat.
Import ListNotations.

(** ** Instantiation results *)

Definition bind {A B : Type} (o : option A) (f : A -> option B) : option B :=
  match o with
  | Some a => f a
  | None => None
  end.

Notation "x <- e ;; k" := (bind e (fun x => k))
  (at level 61, e at next level, right associativity).

(** ** Types *)

(** The element types of a tuple range over an arbitrary collection [type] of
    cv-unqualified object types.  Function arguments additionally carry the
    qualifiers that template argument deduction can see. *)

Inductive ref_qualifier : Set :=
| no_reference
| lvalue_reference
| rvalue_reference.

Record cpp_type (type : Type) : Type := Qualified {
  unqualified : type;
  is_const : bool;
  is_volatile : bool;
  reference : ref_qualifier
}.

Arguments Qualified {type} _ _ _ _.
Arguments unqualified {type} _.
Arguments is_const {type} _.
Arguments is_volatile {type} _.
Arguments reference {type} _.

Section TypeTraits.
Variable type : Type.

Definition remove_reference_t (U : cpp_type type) : cpp_type type :=
  Qualified (unqualified U) (is_const U) (is_volatile U) no_reference.

Definition remove_cv_t (U : cpp_type type) : cpp_type type :=
  Qualified (unqualified U) false false (reference U).

(** Modelled from the spec: [std::decay_t] comes from <type_traits>, which
    is not part of the repository.  The spec describes the decayed type as
    the reference/const/volatile-stripped type of the argument; array and
    function types are outside [cpp_type]. *)
Definition decay_t (U : cpp_type type) : type :=
  unqualified (remove_cv_t (remove_reference_t U)).

(** A plain (unqualified, non-reference) use of an element type. *)
Definition plain (T : type) : cpp_type type :=
  Qualified T false false no_reference.
End TypeTraits.

Arguments remove_reference_t {type} _.
Arguments remove_cv_t {type} _.
Arguments decay_t {type} _.
Arguments plain {type} _.

(** What the header needs to know about the element types it is
    instantiated with. *)
Class ElementTypes : Type := {
  type : Type;
  type_eq_dec : forall T U : type, {T = U} + {T <> U};
  (** the values of a type *)
  El : type -> Type;
  (** default-initialisation, as of [T value;]: [None] when [T] has no
      default constructor; [Some None] when it performs no initialisation
      and leaves an indeterminate value, as for a scalar type;
      [Some (Some d)] when the default constructor produces [d] *)
  default_init : forall T : type, option (option (El T));
  (** [T(std::forward<U>(v))]: [None] when
      [std::is_constructible_v<T, U&&>] is false *)
  direct_init : forall (T : type) (U : cpp_type type),
      option (El (decay_t U) -> El T);
  (** [a == b] on two [const T&]: [None] when [T] has no [operator==] *)
  op_eq : forall T : type, option (El T -> El T -> bool)
}.

(** A C++ reference to an [A] inside an [S]: reading through it and
    assigning through it. *)
Record lvalue (S A : Type) : Type := Lvalue {
  load : S -> A;
  store : A -> S -> S
}.

Arguments Lvalue {S A} _ _.
Arguments load {S A} _ _.
Arguments store {S A} _ _ _.

Definition member_of {S A B : Type} (r : lvalue S A) (f : lvalue A B)
  : lvalue S B :=
  Lvalue (fun s => load f (load r s))
         (fun b s => store r (store f b (load r s)) s).

Section Tuple.
Context {ET : ElementTypes}.

(** A value together with its type. *)
Definition typed_value : Type := { T : type & El T }.

Definition typed (T : type) (v : El T) : typed_value := existT El T v.

(** *** tuple_leaf (Tuple.h:10-34) *)

Record tuple_leaf (I : nat) (T : type) : Type := Leaf { value : El T }.

Arguments Leaf {I T} _.
Arguments value {I T} _.

(** [tuple_leaf() = default] default-initialises the member [T value;],
    which has no initialiser.  The result is a leaf, or a leaf whose value
    is indeterminate ([None]). *)
Definition tuple_leaf_default (I : nat) (T : type)
  : option (option (tuple_leaf I T)) :=
  s <- default_init T ;; Some (option_map Leaf s).

(** [explicit tuple_leaf(U&& v) : value(std::forward<U>(v))], enabled when
    [std::is_constructible_v<T, U&&>] *)
Definition tuple_leaf_ctor (I : nat) (T : type) (U : cpp_type type)
  : option (El (decay_t U) -> tuple_leaf I T) :=
  init <- direct_init T U ;; Some (fun v => Leaf (init v)).

(** [T& get() &] *)
Definition leaf_get (I : nat) (T : type) : lvalue (tuple_leaf I T) (El T) :=
  Lvalue (fun l => value l) (fun v _ => Leaf v).

(** [const T& get() const&] *)
Definition leaf_get_const (I : nat) (T : type) (l : tuple_leaf I T) : El T :=
  value l.

(** *** tuple_impl (Tuple.h:39-58) *)

(** A base class [tuple_leaf<I, T>] is identified by both of its template
    arguments. *)
Definition base : Type := (nat * type)%type.

Definition base_eq_dec (k k' : base) : {k = k'} + {k <> k'}.
Proof.
  destruct k as [I T], k' as [I' T'].
  destruct (Nat.eq_dec I I') as [eI | nI].
  - destruct (type_eq_dec T T') as [eT | nT].
    + left. destruct eI, eT. reflexivity.
    + right. intro e. apply nT. exact (f_equal snd e).
  - right. intro e. apply nI. exact (f_equal fst e).
Defined.

Definition leaf_of (k : base) : Type := tuple_leaf (fst k) (snd k).

(** The pack expansion [tuple_leaf<Is, Ts>...] of the base-specifier
    list. *)
Definition base_classes (Is : list nat) (Ts : list type) : list base :=
  combine Is Ts.

(** An object of a class with the direct bases [ks] and no members of its
    own: one subobject per base. *)
Fixpoint object (ks : list base) : Type :=
  match ks with
  | [] => unit
  | k :: ks' => (leaf_of k * object ks')%type
  end.

Definition tuple_impl (Is : list nat) (Ts : list type) : Type :=
  object (base_classes Is Ts).

(** *** tuple (Tuple.h:63-68) *)

(** [std::index_sequence_for<Ts...>] is [0, 1, ..., sizeof...(Ts) - 1]. *)
Definition index_sequence_for (Ts : list type) : list nat :=
  seq 0 (length Ts).

Definition tuple (Ts : list type) : Type :=
  tuple_impl (index_sequence_for Ts) Ts.

(** The second argument of [tuple_element] and the argument of [tuple_size]
    is any type; only [tuple<Ts...>] matches a specialisation. *)
Inductive type_arg : Type :=
| tuple_of (Ts : list type)
| not_a_tuple (T : type).

(** *** tuple_element (Tuple.h:72-82) *)

(** The two partial specialisations on [tuple<T, Ts...>]; the one for
    [I = 0] is the more specialised.  For [tuple<>] only the primary
    template matches, and it is declared but never defined. *)
Fixpoint tuple_element_pack (I : nat) (Ts : list type) : option type :=
  match Ts with
  | [] => None
  | T :: Ts' =>
      match I with
      | 0 => Some T
      | S _ => tuple_element_pack (I - 1) Ts'
      end
  end.

Definition tuple_element_t (I : nat) (Tuple : type_arg) : option type :=
  match Tuple with
  | tuple_of Ts => tuple_element_pack I Ts
  | not_a_tuple _ => None
  end.

(** *** static_cast to a base class (Tuple.h:89, 95) *)

(** The ways in which [k] occurs among the direct bases [ks]. *)
Fixpoint base_of (k : base) (ks : list base) : Type :=
  match ks with
  | [] => Empty_set
  | k' :: ks' => ((k' = k) + base_of k ks')%type
  end.

(** Resolving [static_cast<tuple_leaf<I, T>&>(t)]: ill-formed when
    [tuple_leaf<I, T>] is not a base of the class of [t]. *)
Fixpoint static_cast (k : base) (ks : list base) : option (base_of k ks) :=
  match ks as ks0 return option (base_of k ks0) with
  | [] => None
  | k' :: ks' =>
      match base_eq_dec k' k with
      | left e => Some (inl e)
      | right _ => option_map inr (static_cast k ks')
      end
  end.

(** The base subobject the cast refers to, read and replaced. *)
Fixpoint subobject (k : base) (ks : list base)
  : base_of k ks -> object ks -> leaf_of k :=
  match ks as ks0 return base_of k ks0 -> object ks0 -> leaf_of k with
  | [] => fun m _ => match m with end
  | k' :: ks' => fun m o =>
      match m with
      | inl e => eq_rect k' leaf_of (fst o) k e
      | inr m' => subobject k ks' m' (snd o)
      end
  end.

Fixpoint assign_subobject (k : base) (ks : list base)
  : base_of k ks -> leaf_of k -> object ks -> object ks :=
  match ks as ks0 return base_of k ks0 -> leaf_of k -> object ks0 -> object ks0 with
  | [] => fun m _ _ => match m with end
  | k' :: ks' => fun m l o =>
      match m with
      | inl e => (eq_rect_r leaf_of l e, snd o)
      | inr m' => (fst o, assign_subobject k ks' m' l (snd o))
      end
  end.

Definition base_reference (k : base) (ks : list base) (m : base_of k ks)
  : lvalue (object ks) (leaf_of k) :=
  Lvalue (subobject k ks m) (assign_subobject k ks m).

(** *** get<I> (Tuple.h:86-108) *)

(** [tuple_element_t<I, tuple<Ts...>>& get(tuple<Ts...>& t)] *)
Definition get (I : nat) (Ts : list type)
  : option { T : type & lvalue (tuple Ts) (El T) } :=
  T <- tuple_element_t I (tuple_of Ts) ;;
  m <- static_cast (I, T) (base_classes (index_sequence_for Ts) Ts) ;;
  Some (existT _ T (member_of (base_reference (I, T) _ m) (leaf_get I T))).

(** [const tuple_element_t<I, tuple<Ts...>>& get(const tuple<Ts...>& t)] *)
Definition get_const (I : nat) (Ts : list type)
  : option { T : type & tuple Ts -> El T } :=
  T <- tuple_element_t I (tuple_of Ts) ;;
  m <- static_cast (I, T) (base_classes (index_sequence_for Ts) Ts) ;;
  Some (existT _ T (fun t => leaf_get_const I T (subobject (I, T) _ m t))).

(** *** Constructors (Tuple.h:17-22, 47-51, 67) *)

(** The values bound to a function parameter pack [Us&&... args]. *)
Fixpoint args (Us : list (cpp_type type)) : Type :=
  match Us with
  | [] => unit
  | U :: Us' => (El (decay_t U) * args Us')%type
  end.

(** The mem-initializer list [tuple_leaf<Is, Ts>(std::forward<Us>(args))...]:
    the three packs are expanded in lockstep. *)
Fixpoint init_bases (ks : list base) (Us : list (cpp_type type))
  : option (args Us -> object ks) :=
  match ks as ks0, Us as Us0 return option (args Us0 -> object ks0) with
  | [], [] => Some (fun _ => tt)
  | k :: ks', U :: Us' =>
      leaf <- tuple_leaf_ctor (fst k) (snd k) U ;;
      rest <- init_bases ks' Us' ;;
      Some (fun a => (leaf (fst a), rest (snd a)))
  | _, _ => None
  end.

(** [explicit tuple_impl(Us&&... args)], enabled when
    [sizeof...(Us) == sizeof...(Ts)] *)
Definition tuple_impl_ctor (Is : list nat) (Ts : list type)
    (Us : list (cpp_type type)) : option (args Us -> tuple_impl Is Ts) :=
  if length Us =? length Ts
  then init_bases (base_classes Is Ts) Us
  else None.

(** An object some of whose base subobjects may hold an indeterminate
    value ([None]): what default-initialisation produces. *)
Fixpoint partial_object (ks : list base) : Type :=
  match ks with
  | [] => unit
  | k :: ks' => (option (leaf_of k) * partial_object ks')%type
  end.

Definition partial_tuple (Ts : list type) : Type :=
  partial_object (base_classes (index_sequence_for Ts) Ts).

(** The defaulted default constructor default-initialises every base. *)
Fixpoint default_bases (ks : list base) : option (partial_object ks) :=
  match ks as ks0 return option (partial_object ks0) with
  | [] => Some tt
  | k :: ks' =>
      leaf <- tuple_leaf_default (fst k) (snd k) ;;
      rest <- default_bases ks' ;;
      Some (leaf, rest)
  end.

(** [tuple_impl() = default] *)
Definition tuple_impl_default (Is : list nat) (Ts : list type)
  : option (partial_object (base_classes Is Ts)) :=
  default_bases (base_classes Is Ts).

(** [using base_type::base_type]: [tuple] inherits the constructor template,
    and its implicit default constructor calls the one of [tuple_impl]. *)
Definition tuple_ctor (Ts : list type) (Us : list (cpp_type type))
  : option (args Us -> tuple Ts) :=
  tuple_impl_ctor (index_sequence_for Ts) Ts Us.

Definition tuple_default (Ts : list type) : option (partial_tuple Ts) :=
  tuple_impl_default (index_sequence_for Ts) Ts.

(** The base subobject a cast refers to in such an object, and the object
    itself when none of its subobjects is indeterminate. *)
Fixpoint partial_subobject (k : base) (ks : list base)
  : base_of k ks -> partial_object ks -> option (leaf_of k) :=
  match ks as ks0
        return base_of k ks0 -> partial_object ks0 -> option (leaf_of k) with
  | [] => fun m _ => match m with end
  | k' :: ks' => fun m o =>
      match m with
      | inl e => eq_rect k' (fun k0 => option (leaf_of k0)) (fst o) k e
      | inr m' => partial_subobject k ks' m' (snd o)
      end
  end.

Fixpoint determinate (ks : list base) : partial_object ks -> option (object ks) :=
  match ks as ks0 return partial_object ks0 -> option (object ks0) with
  | [] => fun _ => Some tt
  | k :: ks' => fun o =>
      leaf <- fst o ;;
      rest <- determinate ks' (snd o) ;;
      Some (leaf, rest)
  end.

(** *** tuple_size (Tuple.h:112-119) *)

(** [sizeof...(Ts)] *)
Definition sizeof_pack (Ts : list type) : nat := length Ts.

(** [std::integral_constant<std::size_t, v>] *)
Record integral_constant : Type := Constant { constant_value : nat }.

(** Only the partial specialisation for [tuple<Ts...>] is defined. *)
Definition tuple_size (T : type_arg) : option integral_constant :=
  match T with
  | tuple_of Ts => Some (Constant (sizeof_pack Ts))
  | not_a_tuple _ => None
  end.

Definition tuple_size_v (T : type_arg) : option nat :=
  c <- tuple_size T ;; Some (constant_value c).

(** *** make_tuple (Tuple.h:123-128) *)

(** The deduced return type is part of the result of the instantiation.
    [Us] are the deduced template arguments [Ts] of [make_tuple]; the
    constructor sees the same [Us&&] after reference collapsing. *)
Definition make_tuple (Us : list (cpp_type type))
  : option { Ts : list type & args Us -> tuple Ts } :=
  let Tuple := map decay_t Us in
  ctor <- tuple_ctor Tuple Us ;;
  Some (existT _ Tuple ctor).

(** *** operator== (Tuple.h:132-142) *)

(** The fold expression [((get<Is>(a) == get<Is>(b)) && ...)]; over an empty
    pack it is [true]. *)
Fixpoint tuple_equal_impl (Ts : list type) (Is : list nat)
  : option (tuple Ts -> tuple Ts -> bool) :=
  match Is with
  | [] => Some (fun _ _ => true)
  | I0 :: Is' =>
      g <- get_const I0 Ts ;;
      eq <- op_eq (projT1 g) ;;
      rest <- tuple_equal_impl Ts Is' ;;
      Some (fun a b => eq (projT2 g a) (projT2 g b) && rest a b)
  end.

Definition tuple_eq (Ts : list type) : option (tuple Ts -> tuple Ts -> bool) :=
  tuple_equal_impl Ts (index_sequence_for Ts).

(** In [a == b] the pack [Ts] is deduced from both arguments; deduction
    fails unless the two tuples have the same type sequence. *)
Definition operator_eq (Ts Ts' : list type)
  : option (tuple Ts -> tuple Ts' -> bool) :=
  match list_eq_dec type_eq_dec Ts Ts' with
  | left e => eq <- tuple_eq Ts ;; Some (fun a b => eq a (eq_rect_r tuple b e))
  | right _ => None
  end.

(** *** Observations used in the statements *)

(** The [i]-th value of an argument pack, with the type it decays to. *)
Fixpoint arg_nth (i : nat) (Us : list (cpp_type type)) {struct Us}
  : args Us -> option typed_value :=
  match Us as Us0 return args Us0 -> option typed_value with
  | [] => fun _ => None
  | U :: Us' => fun a =>
      match i with
      | 0 => Some (typed (decay_t U) (fst a))
      | S i' => arg_nth i' Us' (snd a)
      end
  end.

(** The value held by the [i]-th base subobject, counting the bases in the
    order of the base-specifier list. *)
Fixpoint slot (ks : list base) (i : nat) : object ks -> option typed_value :=
  match ks as ks0 return object ks0 -> option typed_value with
  | [] => fun _ => None
  | k :: ks' => fun o =>
      match i with
      | 0 => Some (typed (snd k) (value (fst o)))
      | S i' => slot ks' i' (snd o)
      end
  end.

(** An expression of type [U&&] initialises a [T] with an equal value: [T]
    is the type [U] decays to, and the selected constructor copies (or
    moves) the value. *)
Definition copy_initialises (T : type) (U : cpp_type type) : Prop :=
  exists init, direct_init T U = Some init /\
               forall v, typed T (init v) = typed (decay_t U) v.

(** The value of the expression [get<I>(a) == get<I>(b)] on two const
    tuples. *)
Definition compare_at (I : nat) (Ts : list type) (a b : tuple Ts)
  : option bool :=
  g <- get_const I Ts ;;
  eq <- op_eq (projT1 g) ;;
  Some (eq (projT2 g a) (projT2 g b)).

(** The state of the [i]-th base subobject of a default-initialised
    object, counting the bases in the order of the base-specifier list. *)
Fixpoint partial_slot (ks : list base) (i : nat)
  : partial_object ks -> option (option typed_value) :=
  match ks as ks0 return partial_object ks0 -> option (option typed_value) with
  | [] => fun _ => None
  | k :: ks' => fun o =>
      match i with
      | 0 => Some (option_map (fun l : leaf_of k => typed (snd k) (value l))
                     (fst o))
      | S i' => partial_slot ks' i' (snd o)
      end
  end.

(** The state of the element [get<I>(t)] refers to in a default-initialised
    tuple: its value with its type, or [None] when it is indeterminate. *)
Definition state_at (I : nat) (Ts : list type) (t : partial_tuple Ts)
  : option (option typed_value) :=
  T <- tuple_element_t I (tuple_of Ts) ;;
  m <- static_cast (I, T) (base_classes (index_sequence_for Ts) Ts) ;;
  Some (option_map (fun l : tuple_leaf I T => typed T (value l))
          (partial_subobject (I, T) _ m t)).

(** What [get<I>(t)] reads, with its type. *)
Definition read (I : nat) (Ts : list type) (t : tuple Ts)
  : option typed_value :=
  g <- get I Ts ;; Some (typed (projT1 g) (load (projT2 g) t)).

(** What [get<I>(t)] reads when [t] is const. *)
Definition read_const (I : nat) (Ts : list type) (t : tuple Ts)
  : option typed_value :=
  g <- get_const I Ts ;; Some (typed (projT1 g) (projT2 g t)).

End Tuple.

Arguments Leaf {ET I T} _.
Arguments value {ET I T} _.
Arguments base_eq_dec : simpl never.

(** ** The defaulted copy and move constructors *)

Section SpecialMembers.
Context {ET : ElementTypes}.

(** Tuple.h:24-25 and 53-54. *)

(** The source expression of a copy, [const T&], and of a move, [T&&]. *)
Definition const_lvalue (T : type) : cpp_type type :=
  Qualified T true false lvalue_reference.

Definition xvalue (T : type) : cpp_type type :=
  Qualified T false false rvalue_reference.

(** [tuple_leaf(const tuple_leaf&) = default] initialises [value] from the
    member of the source; it is deleted when [T] cannot be constructed from
    a [const T&]. *)
Definition tuple_leaf_copy (I : nat) (T : type)
  : option (tuple_leaf I T -> tuple_leaf I T) :=
  init <- direct_init T (const_lvalue T) ;;
  Some (fun other => Leaf (init (value other))).

(** [tuple_leaf(tuple_leaf&&) = default]: the same from [T&&]; it is
    defined as deleted when [T] cannot be constructed from a [T&&].  Only
    the constructed object is described, not what is left in the source. *)
Definition tuple_leaf_move (I : nat) (T : type)
  : option (tuple_leaf I T -> tuple_leaf I T) :=
  init <- direct_init T (xvalue T) ;;
  Some (fun other => Leaf (init (value other))).

(** The constructor of [tuple_leaf<I, T>] that initialises a base from an
    rvalue of the same leaf type: the move constructor, or, since a
    defaulted move constructor that is defined as deleted is ignored by
    overload resolution, the copy constructor. *)
Definition tuple_leaf_from_rvalue (I : nat) (T : type)
  : option (tuple_leaf I T -> tuple_leaf I T) :=
  match tuple_leaf_move I T with
  | Some move => Some move
  | None => tuple_leaf_copy I T
  end.

(** [tuple_impl(const self_type&) = default] and
    [tuple_impl(self_type&&) = default] initialise every base from the
    corresponding base of the source, in the order of the base list: the
    first from a const lvalue, the second from an rvalue. *)
Fixpoint copy_bases (ks : list base) : option (object ks -> object ks) :=
  match ks as ks0 return option (object ks0 -> object ks0) with
  | [] => Some (fun _ => tt)
  | k :: ks' =>
      leaf <- tuple_leaf_copy (fst k) (snd k) ;;
      rest <- copy_bases ks' ;;
      Some (fun other => (leaf (fst other), rest (snd other)))
  end.

Fixpoint move_bases (ks : list base) : option (object ks -> object ks) :=
  match ks as ks0 return option (object ks0 -> object ks0) with
  | [] => Some (fun _ => tt)
  | k :: ks' =>
      leaf <- tuple_leaf_from_rvalue (fst k) (snd k) ;;
      rest <- move_bases ks' ;;
      Some (fun other => (leaf (fst other), rest (snd other)))
  end.

(** The implicit copy and move constructors of [tuple] call those of its
    base [tuple_impl]. *)
Definition tuple_copy (Ts : list type) : option (tuple Ts -> tuple Ts) :=
  copy_bases (base_classes (index_sequence_for Ts) Ts).

Definition tuple_move (Ts : list type) : option (tuple Ts -> tuple Ts) :=
  move_bases (base_classes (index_sequence_for Ts) Ts).

End SpecialMembers.

(** ** The element types of main.cpp *)

#[local] Set Warnings "-inexact-float".

Module Main.

Inductive fundamental : Set := Int | Double | Char.

Definition fundamental_eq_dec (T U : fundamental) : {T = U} + {T <> U}.
Proof. decide equality. Defined.

Definition fundamental_value (T : fundamental) : Type :=
  match T with
  | Int => Z
  | Double => float
  | Char => ascii
  end.

(** Default-initialisation of a scalar performs no initialisation. *)
Definition fundamental_default (T : fundamental)
  : option (option (fundamental_value T)) :=
  Some None.

(** The initialisations main.cpp performs: a scalar from an expression of
    its own type, whatever the value category and cv-qualification of the
    expression.  The arithmetic conversions between the three types are not
    tabulated. *)
Definition fundamental_init (T : fundamental) (U : cpp_type fundamental)
  : option (fundamental_value (decay_t U) -> fundamental_value T) :=
  match fundamental_eq_dec (decay_t U) T with
  | left e => Some (fun v => eq_rect (decay_t U) fundamental_value v T e)
  | right _ => None
  end.

(** The built-in [==]; on [double] it is the IEEE 754 comparison. *)
Definition fundamental_eq (T : fundamental)
  : option (fundamental_value T -> fundamental_value T -> bool) :=
  match T as T0
        return option (fundamental_value T0 -> fundamental_value T0 -> bool) with
  | Int => Some Z.eqb
  | Double => Some PrimFloat.eqb
  | Char => Some Ascii.eqb
  end.

#[export] Instance fundamental_types : ElementTypes := {|
  type := fundamental;
  type_eq_dec := fundamental_eq_dec;
  El := fundamental_value;
  default_init := fundamental_default;
  direct_init := fundamental_init;
  op_eq := fundamental_eq
|}.

(** [tuple<int, double, char> t{ 42, 3.14, 'a' };] *)
Definition t : option (tuple [Int; Double; Char]) :=
  ctor <- tuple_ctor [Int; Double; Char] [plain Int; plain Double; plain Char] ;;
  Some (ctor (42%Z, (3.14%float, ("a"%char, tt)))).

(** [auto t2 = make_tuple(10, 20.5, 'x');] *)
Definition t2 : option { Ts : list fundamental & tuple Ts } :=
  mk <- make_tuple [plain Int; plain Double; plain Char] ;;
  Some (existT _ (projT1 mk) (projT2 mk (10%Z, (20.5%float, ("x"%char, tt))))).

(** [t == t2] *)
Definition t_equals_t2 : option bool :=
  a <- t ;;
  b <- t2 ;;
  eq <- operator_eq [Int; Double; Char] (projT1 b) ;;
  Some (eq a (projT2 b)).

(** A type sequence and an argument pack for it: an [int] prvalue, a
    [const double] lvalue and a [char] prvalue. *)
Definition demo_types : list fundamental := [Int; Double; Char].

Definition demo_args : list (cpp_type fundamental) :=
  [plain Int; Qualified Double true false lvalue_reference; plain Char].

(** The value of a [tuple<int, int>] holding 1 and 2. *)
Definition one_two : tuple [Int; Int] :=
  (Leaf (I := 0) (T := Int) 1%Z, (Leaf (I := 1) (T := Int) 2%Z, tt)).

(** A copy of it. *)
Definition one_two_copy : tuple [Int; Int] :=
  match tuple_copy [Int; Int] with
  | Some copy => copy one_two
  | None => one_two
  end.

End Main.

(** ** Element types with a conversion *)

Module Promotion.

(** [unsigned char] and [int], with the integral promotion between them. *)
Inductive integral : Set := UChar | Int.

Definition integral_eq_dec (T U : integral) : {T = U} + {T <> U}.
Proof. decide equality. Defined.

Definition integral_value (T : integral) : Type :=
  match T with
  | UChar => ascii
  | Int => Z
  end.

Definition integral_default (T : integral)
  : option (option (integral_value T)) :=
  Some None.

(** An object is initialised from an expression of its own type by copying
    the value, an [int] from an [unsigned char] by taking its code, and an
    [unsigned char] from an [int] by reducing it modulo 256. *)
Definition integral_init (T : integral) (U : cpp_type integral)
  : option (integral_value (decay_t U) -> integral_value T) :=
  match T as T0, decay_t U as U0
        return option (integral_value U0 -> integral_value T0) with
  | UChar, UChar => Some (fun c => c)
  | Int, Int => Some (fun n => n)
  | Int, UChar => Some (fun c => Z.of_N (N_of_ascii c))
  | UChar, Int => Some (fun n => ascii_of_N (Z.to_N (n mod 256)))
  end.

Definition integral_eq (T : integral)
  : option (integral_value T -> integral_value T -> bool) :=
  match T as T0
        return option (integral_value T0 -> integral_value T0 -> bool) with
  | UChar => Some Ascii.eqb
  | Int => Some Z.eqb
  end.

Definition integral_types : ElementTypes := {|
  type := integral;
  type_eq_dec := integral_eq_dec;
  El := integral_value;
  default_init := integral_default;
  direct_init := integral_init;
  op_eq := integral_eq
|}.

End Promotion.

(** ** Class types with restricted special members *)

Module Resources.

(** [Text] stands for a string class (default constructor, copy, move and
    [==]); [Handle] for a move-only class whose copy constructor is
    deleted; [Token] for a class with a copy constructor and a deleted
    move constructor; [Count] for [int].  [Handle] and [Token] have neither
    a default constructor nor [==]. *)
Inductive resource : Set := Text | Handle | Token | Count.

Definition resource_eq_dec (T U : resource) : {T = U} + {T <> U}.
Proof. decide equality. Defined.

Definition resource_value (T : resource) : Type :=
  match T with
  | Text => list ascii
  | Handle => nat
  | Token => nat
  | Count => Z
  end.

Definition resource_default (T : resource) : option (option (resource_value T)) :=
  match T as T0 return option (option (resource_value T0)) with
  | Text => Some (Some [])
  | Handle => None
  | Token => None
  | Count => Some None
  end.

(** Whether overload resolution on the constructors of the class selects a
    usable one for an argument of type [U&&] of the class itself. *)
Definition selects_constructor (T : resource) (U : cpp_type resource) : bool :=
  match T with
  | Text => negb (is_volatile U)
  | Handle =>
      match reference U with
      | lvalue_reference => false
      | _ => negb (is_const U) && negb (is_volatile U)
      end
  | Token =>
      match reference U with
      | lvalue_reference => negb (is_volatile U)
      | _ => is_const U && negb (is_volatile U)
      end
  | Count => true
  end.

Definition resource_init (T : resource) (U : cpp_type resource)
  : option (resource_value (decay_t U) -> resource_value T) :=
  match resource_eq_dec (decay_t U) T with
  | left e =>
      if selects_constructor T U
      then Some (fun v => eq_rect (decay_t U) resource_value v T e)
      else None
  | right _ => None
  end.

Definition text_eqb (a b : list ascii) : bool :=
  if list_eq_dec ascii_dec a b then true else false.

Definition resource_eq (T : resource)
  : option (resource_value T -> resource_value T -> bool) :=
  match T as T0
        return option (resource_value T0 -> resource_value T0 -> bool) with
  | Text => Some text_eqb
  | Count => Some Z.eqb
  | Handle => None
  | Token => None
  end.

Definition resource_types : ElementTypes := {|
  type := resource;
  type_eq_dec := resource_eq_dec;
  El := resource_value;
  default_init := resource_default;
  direct_init := resource_init;
  op_eq := resource_eq
|}.

End Resources.

(** * Properties *)

Section Properties.
Context {ET : ElementTypes}.

(** ** tuple_element and tuple_size *)

Lemma tuple_element_pack_nth_error (Ts : list type) :
  forall I, tuple_element_pack I Ts = nth_error Ts I.
Proof.
  induction Ts as [| T Ts' IH]; intros [| I']; simpl; try reflexivity.
  rewrite Nat.sub_0_r. apply IH.
Qed.

Lemma tuple_element_pack_some (Ts : list type) (I : nat) :
  I < length Ts -> exists T, tuple_element_pack I Ts = Some T.
Proof.
  rewrite tuple_element_pack_nth_error. intros H.
  destruct (nth_error Ts I) as [T |] eqn:E.
  - now exists T.
  - apply nth_error_None in E. lia.
Qed.

Lemma tuple_element_pack_none (Ts : list type) (I : nat) :
  length Ts <= I -> tuple_element_pack I Ts = None.
Proof.
  rewrite tuple_element_pack_nth_error. apply nth_error_None.
Qed.

(** C5 (size correctness): for a tuple type declared over K element types,
    [tuple_size_v] is exactly K -- 0 for [tuple<>], 1 for a one-element
    tuple -- and it is obtained from the type alone, no tuple object being
    involved.  K is also the number of slots of the storage and the bound
    below which [tuple_element] is defined. *)
Theorem tuple_size_correct (Ts : list type) :
  tuple_size_v (tuple_of Ts) = Some (length Ts) /\
  tuple_size_v (tuple_of []) = Some 0 /\
  (forall T, tuple_size_v (tuple_of [T]) = Some 1) /\
  length (base_classes (index_sequence_for Ts) Ts) = length Ts /\
  (forall I, I < length Ts <->
             exists T, tuple_element_t I (tuple_of Ts) = Some T).
Proof.
  split; [reflexivity |].
  split; [reflexivity |].
  split; [reflexivity |].
  split; [| intros I; split].
  - unfold base_classes, index_sequence_for.
    unfold base. rewrite length_combine, length_seq. apply Nat.min_id.
  - apply tuple_element_pack_some.
  - intros [T E]. simpl in E.
    destruct (Nat.lt_ge_cases I (length Ts)) as [Hlt | Hge]; [exact Hlt |].
    rewrite (tuple_element_pack_none Ts I Hge) in E. discriminate.
Qed.

(** ** Base subobjects *)

Lemma subobject_assign (k : base) (ks : list base) :
  forall (m : base_of k ks) (l : leaf_of k) (o : object ks),
    subobject k ks m (assign_subobject k ks m l o) = l.
Proof.
  induction ks as [| k' ks' IH]; intros m l o; simpl in *.
  - destruct m.
  - destruct m as [e | m'].
    + destruct e. reflexivity.
    + apply IH.
Qed.


Lemma base_eq_dec_refl (k : base) : base_eq_dec k k = left eq_refl.
Proof.
  destruct (base_eq_dec k k) as [e | n].
  - f_equal. apply UIP_dec, base_eq_dec.
  - now contradiction n.
Qed.

(** The bases of [tuple<Ts...>] are pairwise distinct whatever [Ts] is,
    because their positions are. *)
Lemma tuple_bases_NoDup (Ts : list type) :
  NoDup (base_classes (index_sequence_for Ts) Ts).
Proof.
  unfold base_classes, index_sequence_for.
  generalize 0 as s.
  induction Ts as [| T Ts' IH]; intros s; simpl.
  - constructor.
  - constructor; [| apply IH].
    intros Hin. apply in_combine_l, in_seq in Hin. lia.
Qed.

(** [static_cast] by position and type finds the base at that position of
    the layout. *)
Lemma static_cast_index_sequence (Ts : list type) :
  forall (s i p : nat) (T : type),
    p = s + i ->
    nth_error Ts i = Some T ->
    exists m : base_of (p, T) (combine (seq s (length Ts)) Ts),
      static_cast (p, T) (combine (seq s (length Ts)) Ts) = Some m /\
      forall o, slot _ i o = Some (typed T (value (subobject _ _ m o))).
Proof.
  induction Ts as [| T0 Ts' IH]; intros s i p T Hp Hnth.
  - destruct i; discriminate.
  - destruct i as [| i']; simpl in Hnth.
    + injection Hnth as ->.
      assert (p = s) as -> by lia.
      simpl. rewrite base_eq_dec_refl.
      exists (inl eq_refl). split; [reflexivity |].
      intros o. reflexivity.
    + destruct (IH (S s) i' p T ltac:(lia) Hnth) as [m [Hm Hslot]].
      simpl.
      destruct (base_eq_dec (s, T0) (p, T)) as [e | _].
      * exfalso. injection e as e1 e2. lia.
      * rewrite Hm. exists (inr m). split; [reflexivity |].
        intros o. simpl. apply Hslot.
Qed.

(** ** get *)

Lemma slot_none (ks : list base) :
  forall i (o : object ks), length ks <= i -> slot ks i o = None.
Proof.
  induction ks as [| k ks' IH]; intros i o Hi; simpl in *.
  - reflexivity.
  - destruct i as [| i']; [lia |]. apply IH. lia.
Qed.

Lemma tuple_bases_length (Ts : list type) :
  length (base_classes (index_sequence_for Ts) Ts) = length Ts.
Proof.
  unfold base_classes, index_sequence_for, base.
  rewrite length_combine, length_seq. apply Nat.min_id.
Qed.

(** How [get<I>] is instantiated at a valid position. *)
Lemma get_resolves (Ts : list type) (I : nat) (T : type) :
  nth_error Ts I = Some T ->
  exists m : base_of (I, T) (base_classes (index_sequence_for Ts) Ts),
    get I Ts =
      Some (existT _ T (member_of (base_reference (I, T) _ m) (leaf_get I T))) /\
    get_const I Ts =
      Some (existT _ T (fun t => leaf_get_const I T (subobject (I, T) _ m t))) /\
    forall t : tuple Ts, slot _ I t = Some (typed T (value (subobject _ _ m t))).
Proof.
  intros Hnth.
  destruct (static_cast_index_sequence Ts 0 I I T eq_refl Hnth) as [m [Hm Hslot]].
  exists m. unfold get, get_const, tuple_element_t.
  rewrite tuple_element_pack_nth_error, Hnth.
  unfold base_classes, index_sequence_for. simpl. rewrite Hm. simpl.
  repeat split. exact Hslot.
Qed.

Lemma get_out_of_range (Ts : list type) (I : nat) :
  length Ts <= I -> get I Ts = None /\ get_const I Ts = None.
Proof.
  intros Hge. unfold get, get_const, tuple_element_t.
  rewrite (tuple_element_pack_none Ts I Hge). split; reflexivity.
Qed.

(** Reading through [get<I>] is reading the [I]-th slot of the storage. *)
Lemma read_slot (Ts : list type) (I : nat) (t : tuple Ts) :
  read I Ts t = slot _ I t /\ read_const I Ts t = slot _ I t.
Proof.
  destruct (nth_error Ts I) as [T |] eqn:Hnth.
  - destruct (get_resolves Ts I T Hnth) as [m [Hg [Hc Hslot]]].
    unfold read, read_const. rewrite Hg, Hc, Hslot. split; reflexivity.
  - apply nth_error_None in Hnth.
    destruct (get_out_of_range Ts I Hnth) as [Hg Hc].
    unfold read, read_const. rewrite Hg, Hc. simpl.
    rewrite slot_none; [split; reflexivity |].
    unfold tuple, tuple_impl in t. now rewrite tuple_bases_length.
Qed.

(** C4 (element-type correctness): [tuple_element_t<I, tuple<Ts...>>] is
    the [I]-th type of [Ts] -- whatever [Ts] is, duplicates included --
    computed by stripping the head type once per decrement of [I] until
    [I = 0] selects the head; and the reference returned by [get<I>], in
    its mutable and in its const form, has exactly that type. *)
Theorem element_type_correct (Ts : list type) (I : nat) :
  tuple_element_t I (tuple_of Ts) = nth_error Ts I /\
  (forall T Ts', tuple_element_t 0 (tuple_of (T :: Ts')) = Some T) /\
  (forall T Ts', tuple_element_t (S I) (tuple_of (T :: Ts')) =
                 tuple_element_t I (tuple_of Ts')) /\
  option_map (@projT1 _ _) (get I Ts) = nth_error Ts I /\
  option_map (@projT1 _ _) (get_const I Ts) = nth_error Ts I.
Proof.
  split; [apply tuple_element_pack_nth_error |].
  split; [reflexivity |].
  split; [intros T Ts'; simpl; now rewrite Nat.sub_0_r |].
  destruct (nth_error Ts I) as [T |] eqn:Hnth.
  - destruct (get_resolves Ts I T Hnth) as [m [Hg [Hc _]]].
    rewrite Hg, Hc. split; reflexivity.
  - apply nth_error_None in Hnth.
    destruct (get_out_of_range Ts I Hnth) as [Hg Hc].
    rewrite Hg, Hc. split; reflexivity.
Qed.

(** C3 (out-of-range access is rejected at compile time): for a tuple of
    arity N and a position that does not satisfy [0 <= Position < N],
    [tuple_element_t] and both overloads of [get] are ill-formed, so there
    is no function that could be run and produce a value or a fault. *)
Theorem out_of_range_rejected (Ts : list type) (Position : nat) :
  ~ (0 <= Position < length Ts) ->
  tuple_element_t Position (tuple_of Ts) = None /\
  get Position Ts = None /\
  get_const Position Ts = None /\
  (forall t : tuple Ts, read Position Ts t = None).
Proof.
  intros Hout.
  assert (length Ts <= Position) as Hge by lia.
  destruct (get_out_of_range Ts Position Hge) as [Hg Hc].
  split; [| split; [exact Hg | split; [exact Hc |]]].
  - simpl. now apply tuple_element_pack_none.
  - intros t. unfold read. now rewrite Hg.
Qed.

(** ** Construction *)

Lemma arg_nth_some (Us : list (cpp_type type)) :
  forall i (a : args Us), i < length Us -> exists v, arg_nth i Us a = Some v.
Proof.
  induction Us as [| U Us' IH]; intros i a Hi; simpl in *.
  - lia.
  - destruct i as [| i'].
    + eexists. reflexivity.
    + apply IH. lia.
Qed.

Lemma init_bases_slot (ks : list base) :
  forall Us : list (cpp_type type),
    Forall2 (fun k U => copy_initialises (snd k) U) ks Us ->
    exists mk, init_bases ks Us = Some mk /\
               forall a i, slot ks i (mk a) = arg_nth i Us a.
Proof.
  induction ks as [| k ks' IH]; intros Us Hall; inversion Hall; subst; simpl.
  - eexists. split; [reflexivity |]. reflexivity.
  - match goal with
    | H : copy_initialises _ _ |- _ => destruct H as [init [Hinit Hcopy]]
    end.
    match goal with
    | H : Forall2 _ ks' _ |- _ => destruct (IH _ H) as [rest [Hrest Hslot]]
    end.
    unfold tuple_leaf_ctor. rewrite Hinit. simpl. rewrite Hrest. simpl.
    eexists. split; [reflexivity |].
    intros a [| i']; simpl.
    + f_equal. apply Hcopy.
    + apply Hslot.
Qed.

Lemma Forall2_bases {P : type -> cpp_type type -> Prop}
    (Ts : list type) :
  forall (Us : list (cpp_type type)) (s : nat),
    Forall2 P Ts Us ->
    Forall2 (fun k U => P (snd k) U) (combine (seq s (length Ts)) Ts) Us.
Proof.
  induction Ts as [| T Ts' IH]; intros Us s Hall; inversion Hall; subst; simpl.
  - constructor.
  - constructor; [assumption |]. now apply IH.
Qed.

(** C1 (positional fidelity): for every type sequence [Ts] of arity N and
    arguments [v0, ..., v(N-1)] of the declared types (each one copied or
    moved into its slot), the constructor is well-formed, and for every
    position [i < N] reading [get<i>] from the constructed tuple gives
    exactly [vi] at its declared type.  [Ts] is arbitrary, so positions
    that share an element type are included: the base classes holding the
    slots are pairwise distinct because their positions are. *)
Theorem positional_fidelity (Ts : list type) (Us : list (cpp_type type)) :
  Forall2 copy_initialises Ts Us ->
  NoDup (base_classes (index_sequence_for Ts) Ts) /\
  exists ctor : args Us -> tuple Ts,
    tuple_ctor Ts Us = Some ctor /\
    forall (a : args Us) (i : nat),
      i < length Ts ->
      exists v, arg_nth i Us a = Some v /\ read i Ts (ctor a) = Some v.
Proof.
  intros Hall.
  split; [apply tuple_bases_NoDup |].
  pose proof (Forall2_length Hall) as Hlen.
  destruct (init_bases_slot _ Us (Forall2_bases Ts Us 0 Hall))
    as [mk [Hmk Hslot]].
  exists mk. split.
  - unfold tuple_ctor, tuple_impl_ctor.
    rewrite <- Hlen, Nat.eqb_refl. exact Hmk.
  - intros a i Hi.
    destruct (arg_nth_some Us i a ltac:(lia)) as [v Hv].
    exists v. split; [exact Hv |].
    destruct (read_slot Ts i (mk a)) as [-> _].
    unfold base_classes, index_sequence_for. rewrite Hslot. exact Hv.
Qed.

Lemma nth_error_bases (Ts : list type) :
  forall (s i : nat) (T : type),
    nth_error Ts i = Some T ->
    nth_error (combine (seq s (length Ts)) Ts) i = Some (s + i, T).
Proof.
  induction Ts as [| T0 Ts' IH]; intros s i T Hnth.
  - destruct i; discriminate.
  - destruct i as [| i']; simpl in *.
    + injection Hnth as ->. now rewrite Nat.add_0_r.
    + rewrite (IH (S s) i' T Hnth). f_equal. f_equal. lia.
Qed.

Lemma default_bases_state (ks : list base) :
  Forall (fun k => default_init (snd k) <> None) ks ->
  exists o, default_bases ks = Some o /\
            forall i k, nth_error ks i = Some k ->
                        exists s, default_init (snd k) = Some s /\
                                  partial_slot ks i o =
                                    Some (option_map (typed (snd k)) s).
Proof.
  induction ks as [| k ks' IH]; intros Hall; simpl.
  - eexists. split; [reflexivity |]. intros [| i] k H; discriminate.
  - inversion Hall as [| ? ? Hk Hks']; subst.
    destruct (IH Hks') as [o' [Ho' Hslot]].
    unfold tuple_leaf_default.
    destruct (default_init (snd k)) as [s |] eqn:Hs; [| now contradiction Hk].
    simpl. rewrite Ho'. simpl.
    eexists. split; [reflexivity |].
    intros [| i'] k0 Hnth; simpl in *.
    + injection Hnth as <-. exists s. split; [exact Hs |].
      now destruct s.
    + now apply Hslot.
Qed.

Lemma default_bases_determinate (ks : list base) :
  Forall (fun k => exists d, default_init (snd k) = Some (Some d)) ks ->
  forall o, default_bases ks = Some o ->
  exists o', determinate ks o = Some o' /\
             forall i k, nth_error ks i = Some k ->
                         exists d, default_init (snd k) = Some (Some d) /\
                                   slot ks i o' = Some (typed (snd k) d).
Proof.
  induction ks as [| k ks' IH]; intros Hall o Ho; simpl in *.
  - eexists. split; [reflexivity |]. intros [| i] k H; discriminate.
  - inversion Hall as [| ? ? [d Hd] Hks']; subst.
    unfold tuple_leaf_default in Ho. rewrite Hd in Ho. simpl in Ho.
    destruct (default_bases ks') as [rest |] eqn:Hrest; [| discriminate].
    simpl in Ho. injection Ho as <-. simpl.
    destruct (IH Hks' rest eq_refl) as [rest' [Hdet Hslot]].
    rewrite Hdet. simpl.
    eexists. split; [reflexivity |].
    intros [| i'] k0 Hnth; simpl in *.
    + injection Hnth as <-. exists d. now split.
    + now apply Hslot.
Qed.

(** In a default-initialised tuple too, [static_cast] by position and type
    finds the base at that position of the layout. *)
Lemma static_cast_partial (Ts : list type) :
  forall (s i p : nat) (T : type),
    p = s + i ->
    nth_error Ts i = Some T ->
    exists m : base_of (p, T) (combine (seq s (length Ts)) Ts),
      static_cast (p, T) (combine (seq s (length Ts)) Ts) = Some m /\
      forall o, partial_slot _ i o =
                Some (option_map (fun l : tuple_leaf p T => typed T (value l))
                        (partial_subobject _ _ m o)).
Proof.
  induction Ts as [| T0 Ts' IH]; intros s i p T Hp Hnth.
  - destruct i; discriminate.
  - destruct i as [| i']; simpl in Hnth.
    + injection Hnth as ->.
      assert (p = s) as -> by lia.
      simpl. rewrite base_eq_dec_refl.
      exists (inl eq_refl). split; [reflexivity |].
      intros o. reflexivity.
    + destruct (IH (S s) i' p T ltac:(lia) Hnth) as [m [Hm Hslot]].
      simpl.
      destruct (base_eq_dec (s, T0) (p, T)) as [e | _].
      * exfalso. injection e as e1 e2. lia.
      * rewrite Hm. exists (inr m). split; [reflexivity |].
        intros o. simpl. apply Hslot.
Qed.

Lemma state_at_slot (Ts : list type) (i : nat) (T : type)
    (t : partial_tuple Ts) :
  nth_error Ts i = Some T ->
  state_at i Ts t = partial_slot _ i t.
Proof.
  intros Hnth.
  destruct (static_cast_partial Ts 0 i i T eq_refl Hnth) as [m [Hm Hslot]].
  unfold state_at, tuple_element_t.
  rewrite tuple_element_pack_nth_error, Hnth.
  unfold base_classes, index_sequence_for. simpl. rewrite Hm. simpl.
  symmetry. apply Hslot.
Qed.

(** C9 (default construction), as the code has it: when every element type
    of [Ts] has a default constructor, default-constructing [tuple<Ts...>]
    is well-formed and leaves every position [i] in the state that
    default-initialisation gives the type declared at [i] -- the value its
    default constructor produces, or an indeterminate value where
    default-initialisation does nothing, as for a scalar.  When the default
    constructor of every element type produces a value, the tuple is fully
    determined and [get<i>] reads that value at every position. *)
Theorem default_construction (Ts : list type) :
  Forall (fun T => default_init T <> None) Ts ->
  exists t : partial_tuple Ts,
    tuple_default Ts = Some t /\
    (forall i, i < length Ts ->
       exists T s, nth_error Ts i = Some T /\
                   default_init T = Some s /\
                   state_at i Ts t = Some (option_map (typed T) s)) /\
    (Forall (fun T => exists d, default_init T = Some (Some d)) Ts ->
     exists o : tuple Ts,
       determinate _ t = Some o /\
       forall i, i < length Ts ->
         exists T d, nth_error Ts i = Some T /\
                     default_init T = Some (Some d) /\
                     read i Ts o = Some (typed T d)).
Proof.
  intros Hall.
  destruct (default_bases_state (base_classes (index_sequence_for Ts) Ts))
    as [t [Ht Hstate]].
  { apply Forall_forall. intros [I T] Hin. simpl.
    apply in_combine_r in Hin.
    exact (proj1 (Forall_forall _ Ts) Hall T Hin). }
  exists t. split; [exact Ht |]. split.
  - intros i Hi.
    destruct (nth_error Ts i) as [T |] eqn:Hnth;
      [| apply nth_error_None in Hnth; lia].
    destruct (Hstate i (0 + i, T) (nth_error_bases Ts 0 i T Hnth))
      as [s [Hs Hslot]].
    exists T, s. repeat split; [exact Hs |].
    rewrite (state_at_slot Ts i T t Hnth). exact Hslot.
  - intros Hdet.
    destruct (default_bases_determinate
                (base_classes (index_sequence_for Ts) Ts)) with (o := t)
      as [o [Ho Hslot]]; [| exact Ht |].
    { apply Forall_forall. intros [I T] Hin. simpl.
      apply in_combine_r in Hin.
      exact (proj1 (Forall_forall _ Ts) Hdet T Hin). }
    exists o. split; [exact Ho |].
    intros i Hi.
    destruct (nth_error Ts i) as [T |] eqn:Hnth;
      [| apply nth_error_None in Hnth; lia].
    destruct (Hslot i (0 + i, T) (nth_error_bases Ts 0 i T Hnth))
      as [d [Hd Hs]].
    exists T, d. repeat split; [exact Hd |].
    destruct (read_slot Ts i o) as [-> _]. exact Hs.
Qed.

(** ** make_tuple *)

Lemma decay_t_unqualified (U : cpp_type type) : decay_t U = unqualified U.
Proof. reflexivity. Qed.

Lemma Forall2_decay {P : type -> cpp_type type -> Prop}
    (Us : list (cpp_type type)) :
  Forall (fun U => P (decay_t U) U) Us -> Forall2 P (map decay_t Us) Us.
Proof.
  induction 1; simpl; constructor; assumption.
Qed.

(** C6 (construction inference): [make_tuple] is well-formed for arguments
    that can be copied or moved into an object of their decayed type; the
    tuple it returns has the type sequence [decay_t<Ts>...], in argument
    order, which depends on the unqualified types of the arguments only
    (not on their reference, const or volatile qualifiers), and at every
    position the element equals the corresponding argument. *)
Theorem make_tuple_inference (Us : list (cpp_type type)) :
  Forall (fun U => copy_initialises (decay_t U) U) Us ->
  exists ctor : args Us -> tuple (map decay_t Us),
    make_tuple Us = Some (existT _ (map decay_t Us) ctor) /\
    map decay_t Us = map unqualified Us /\
    forall (a : args Us) (i : nat),
      i < length Us ->
      exists v, arg_nth i Us a = Some v /\
                read i (map decay_t Us) (ctor a) = Some v.
Proof.
  intros Hall.
  pose proof (Forall2_decay Us Hall) as Hall2.
  destruct (init_bases_slot _ Us (Forall2_bases (map decay_t Us) Us 0 Hall2))
    as [mk [Hmk Hslot]].
  exists mk. split; [| split].
  - unfold make_tuple, tuple_ctor, tuple_impl_ctor.
    rewrite length_map, Nat.eqb_refl.
    unfold base_classes, index_sequence_for. rewrite Hmk. reflexivity.
  - apply map_ext. exact decay_t_unqualified.
  - intros a i Hi.
    destruct (arg_nth_some Us i a Hi) as [v Hv].
    exists v. split; [exact Hv |].
    destruct (read_slot (map decay_t Us) i (mk a)) as [-> _].
    unfold base_classes, index_sequence_for. rewrite Hslot. exact Hv.
Qed.

(** ** Writing through get *)

(** C7 (mutation through accessor): at every position [i < N], [get<i>] is
    well-formed and returns a reference to the declared type at [i];
    assigning [v] through it changes the tuple so that reading [get<i>]
    again, on the mutable or on the const tuple, gives [v]. *)
Theorem mutation_through_get (Ts : list type) (i : nat) :
  i < length Ts ->
  exists (T : type) (r : lvalue (tuple Ts) (El T)),
    nth_error Ts i = Some T /\
    get i Ts = Some (existT _ T r) /\
    forall (t : tuple Ts) (v : El T),
      load r (store r v t) = v /\
      read i Ts (store r v t) = Some (typed T v) /\
      read_const i Ts (store r v t) = Some (typed T v).
Proof.
  intros Hi.
  destruct (nth_error Ts i) as [T |] eqn:Hnth;
    [| apply nth_error_None in Hnth; lia].
  destruct (get_resolves Ts i T Hnth) as [m [Hg [Hc _]]].
  exists T. eexists. split; [reflexivity |]. split; [exact Hg |].
  intros t v.
  assert (load (member_of (base_reference (i, T) _ m) (leaf_get i T))
            (store (member_of (base_reference (i, T) _ m) (leaf_get i T)) v t)
          = v) as Hload.
  { simpl. now rewrite subobject_assign. }
  split; [exact Hload |].
  unfold read, read_const. rewrite Hg, Hc. simpl.
  rewrite subobject_assign. split; reflexivity.
Qed.


(** ** operator== *)

Lemma compare_at_resolves (Ts : list type) (I : nat) (T : type)
    (cmp : El T -> El T -> bool) :
  nth_error Ts I = Some T ->
  op_eq T = Some cmp ->
  exists g : tuple Ts -> El T,
    get_const I Ts = Some (existT _ T g) /\
    (forall t, read_const I Ts t = Some (typed T (g t))) /\
    forall a b, compare_at I Ts a b = Some (cmp (g a) (g b)).
Proof.
  intros Hnth Hcmp.
  destruct (get_resolves Ts I T Hnth) as [m [_ [Hc _]]].
  eexists. split; [exact Hc |]. split.
  - intros t. unfold read_const. rewrite Hc. reflexivity.
  - intros a b. unfold compare_at. rewrite Hc. simpl. rewrite Hcmp. reflexivity.
Qed.

Lemma comparable_at (Ts : list type) (I : nat) :
  Forall (fun T => op_eq T <> None) Ts ->
  I < length Ts ->
  exists T cmp, nth_error Ts I = Some T /\ op_eq T = Some cmp.
Proof.
  intros Hall HI.
  destruct (nth_error Ts I) as [T |] eqn:Hnth;
    [| apply nth_error_None in Hnth; lia].
  pose proof (proj1 (Forall_forall _ Ts) Hall T (nth_error_In _ _ Hnth)) as HT.
  destruct (op_eq T) as [cmp |] eqn:Hcmp; [| now contradiction HT].
  now exists T, cmp.
Qed.

(** The fold over a pack of valid positions is the conjunction of the
    comparisons at these positions. *)
Lemma tuple_equal_impl_spec (Ts : list type) :
  Forall (fun T => op_eq T <> None) Ts ->
  forall Is : list nat,
    (forall I, In I Is -> I < length Ts) ->
    exists f, tuple_equal_impl Ts Is = Some f /\
              forall a b, f a b = true <->
                          forall I, In I Is -> compare_at I Ts a b = Some true.
Proof.
  intros Hall.
  induction Is as [| I0 Is' IH]; intros Hvalid; simpl.
  - eexists. split; [reflexivity |]. intros a b. split; [intros _ I [] | reflexivity].
  - destruct (comparable_at Ts I0 Hall (Hvalid I0 (or_introl eq_refl)))
      as [T [cmp [Hnth Hcmp]]].
    destruct (compare_at_resolves Ts I0 T cmp Hnth Hcmp) as [g [Hg [_ Hat]]].
    destruct (IH (fun I H => Hvalid I (or_intror H))) as [rest [Hrest Hspec]].
    rewrite Hg. simpl. rewrite Hcmp. simpl. rewrite Hrest. simpl.
    eexists. split; [reflexivity |].
    intros a b. rewrite andb_true_iff, Hspec. split.
    + intros [H0 Hin] I [<- | HI].
      * rewrite Hat. now f_equal.
      * now apply Hin.
    + intros H. split.
      * specialize (H I0 (or_introl eq_refl)). rewrite Hat in H.
        now injection H.
      * intros I HI. apply H. now right.
Qed.

Lemma tuple_eq_spec (Ts : list type) :
  Forall (fun T => op_eq T <> None) Ts ->
  exists eq, tuple_eq Ts = Some eq /\
             forall a b, eq a b = true <->
                         forall i, i < length Ts ->
                                   compare_at i Ts a b = Some true.
Proof.
  intros Hall.
  destruct (tuple_equal_impl_spec Ts Hall (index_sequence_for Ts))
    as [eq [Heq Hspec]].
  - intros I HI. apply in_seq in HI. lia.
  - exists eq. split; [exact Heq |].
    intros a b. rewrite Hspec. unfold index_sequence_for. split.
    + intros H i Hi. apply H, in_seq. lia.
    + intros H I HI. apply H. apply in_seq in HI. lia.
Qed.

(** C2 (structural equality as conjunction): for tuples [a], [b] of the
    same type sequence, all of whose element types have [==], the
    comparison [a == b] is well-formed and is true if and only if
    [get<i>(a) == get<i>(b)] is true at every position [i < N].  Assigning,
    at a single position, a value that compares unequal to the one held
    makes the tuple unequal to the original; two empty tuples are equal. *)
Theorem equality_is_conjunction (Ts : list type) :
  Forall (fun T => op_eq T <> None) Ts ->
  exists eq : tuple Ts -> tuple Ts -> bool,
    tuple_eq Ts = Some eq /\
    (forall a b, eq a b = true <->
                 forall i, i < length Ts -> compare_at i Ts a b = Some true) /\
    (forall a i T r cmp v,
        get i Ts = Some (existT _ T r) ->
        op_eq T = Some cmp ->
        cmp (load r a) v = false ->
        eq a (store r v a) = false) /\
    (Ts = [] -> forall a b, eq a b = true).
Proof.
  intros Hall.
  destruct (tuple_eq_spec Ts Hall) as [eq [Heq Hspec]].
  exists eq. split; [exact Heq |]. split; [exact Hspec |]. split.
  - intros a i T r cmp v Hg Hcmp Hne.
    apply not_true_is_false. intros Htrue.
    destruct (Nat.lt_ge_cases i (length Ts)) as [Hi | Hge].
    + pose proof (proj1 (Hspec a (store r v a)) Htrue i Hi) as Hat.
      destruct (nth_error Ts i) as [T' |] eqn:Hnth;
        [| apply nth_error_None in Hnth; lia].
      destruct (get_resolves Ts i T' Hnth) as [m [Hg' [Hc _]]].
      rewrite Hg' in Hg. injection Hg as -> Hr.
      apply inj_pair2_eq_dec in Hr; [| exact type_eq_dec]. subst r.
      unfold compare_at in Hat. rewrite Hc in Hat. simpl in Hat.
      rewrite Hcmp in Hat. simpl in Hat, Hne.
      rewrite subobject_assign in Hat. simpl in Hat.
      unfold leaf_get_const in Hat. rewrite Hne in Hat. discriminate.
    + destruct (get_out_of_range Ts i Hge) as [Hnone _].
      rewrite Hnone in Hg. discriminate.
  - intros -> a b. apply Hspec. simpl. intros i Hi. lia.
Qed.

(** C8 (equality reflexivity): when the [==] of every element type is
    reflexive, every tuple value is equal to itself. *)
Theorem equality_reflexive (Ts : list type) :
  Forall (fun T => exists cmp, op_eq T = Some cmp /\
                               forall x, cmp x x = true) Ts ->
  exists eq : tuple Ts -> tuple Ts -> bool,
    tuple_eq Ts = Some eq /\ forall a, eq a a = true.
Proof.
  intros Hrefl.
  assert (Forall (fun T => op_eq T <> None) Ts) as Hall.
  { eapply Forall_impl; [| exact Hrefl].
    intros T [cmp [-> _]]. discriminate. }
  destruct (tuple_eq_spec Ts Hall) as [eq [Heq Hspec]].
  exists eq. split; [exact Heq |].
  intros a. apply Hspec. intros i Hi.
  destruct (nth_error Ts i) as [T |] eqn:Hnth;
    [| apply nth_error_None in Hnth; lia].
  destruct (proj1 (Forall_forall _ Ts) Hrefl T (nth_error_In _ _ Hnth))
    as [cmp [Hcmp Hxx]].
  destruct (compare_at_resolves Ts i T cmp Hnth Hcmp) as [g [_ [_ Hat]]].
  rewrite Hat. f_equal. apply Hxx.
Qed.

End Properties.

(** * Further properties of the header *)

Section FurtherProperties.
Context {ET : ElementTypes}.

(** ** The storage: one base per position *)

Lemma static_cast_In (k : base) (ks : list base) :
  static_cast k ks <> None -> In k ks.
Proof.
  induction ks as [| k' ks' IH]; simpl; intros H.
  - now contradiction H.
  - destruct (base_eq_dec k' k) as [e | _].
    + now left.
    + right. apply IH. intros E. rewrite E in H. now contradiction H.
Qed.

Lemma In_bases (Ts : list type) :
  forall (s p : nat) (T : type),
    In (p, T) (combine (seq s (length Ts)) Ts) ->
    s <= p /\ nth_error Ts (p - s) = Some T.
Proof.
  induction Ts as [| T0 Ts' IH]; intros s p T Hin; simpl in Hin.
  - destruct Hin.
  - destruct Hin as [e | Hin].
    + injection e as <- <-. split; [lia |]. now rewrite Nat.sub_diag.
    + destruct (IH (S s) p T Hin) as [Hle Hnth]. split; [lia |].
      replace (p - s) with (S (p - S s)) by lia. exact Hnth.
Qed.

(** X1: [tuple_leaf<I, T>] is a base of [tuple<Ts...>] exactly when [T] is the
    type declared at position [I]; the bases are pairwise distinct and
    there are as many as declared types. *)
Theorem storage_one_base_per_position (Ts : list type) :
  NoDup (base_classes (index_sequence_for Ts) Ts) /\
  length (base_classes (index_sequence_for Ts) Ts) = length Ts /\
  forall (I : nat) (T : type),
    static_cast (I, T) (base_classes (index_sequence_for Ts) Ts) <> None <->
    nth_error Ts I = Some T.
Proof.
  split; [apply tuple_bases_NoDup |].
  split; [apply tuple_bases_length |].
  intros I T. split.
  - intros H. apply static_cast_In in H.
    destruct (In_bases Ts 0 I T H) as [_ Hnth].
    now rewrite Nat.sub_0_r in Hnth.
  - intros Hnth.
    destruct (static_cast_index_sequence Ts 0 I I T eq_refl Hnth) as [m [Hm _]].
    unfold base_classes, index_sequence_for. rewrite Hm. discriminate.
Qed.

(** ** Laws of assignment through get *)

Lemma assign_subobject_same (k : base) (ks : list base) :
  forall (m : base_of k ks) (o : object ks),
    assign_subobject k ks m (subobject k ks m o) o = o.
Proof.
  induction ks as [| k' ks' IH]; intros m o; simpl in *.
  - destruct m.
  - destruct o as [l o']. destruct m as [e | m']; simpl.
    + destruct e. reflexivity.
    + now rewrite IH.
Qed.

Lemma assign_subobject_twice (k : base) (ks : list base) :
  forall (m : base_of k ks) (l l' : leaf_of k) (o : object ks),
    assign_subobject k ks m l (assign_subobject k ks m l' o) =
    assign_subobject k ks m l o.
Proof.
  induction ks as [| k' ks' IH]; intros m l l' o; simpl in *.
  - destruct m.
  - destruct m as [e | m']; simpl.
    + reflexivity.
    + now rewrite IH.
Qed.


(** X2: assigning to [get<i>(t)] the value it already holds leaves [t] as it
    is, and of two assignments through [get<i>] only the last one counts. *)
Theorem assignment_through_get_laws (Ts : list type) (i : nat) :
  i < length Ts ->
  exists (T : type) (r : lvalue (tuple Ts) (El T)),
    get i Ts = Some (existT _ T r) /\
    (forall t : tuple Ts, store r (load r t) t = t) /\
    (forall (t : tuple Ts) (v w : El T),
        store r v (store r w t) = store r v t).
Proof.
  intros Hi.
  destruct (nth_error Ts i) as [T |] eqn:Hnth;
    [| apply nth_error_None in Hnth; lia].
  destruct (get_resolves Ts i T Hnth) as [m [Hg _]].
  exists T. eexists. split; [exact Hg |]. split.
  - intros t. simpl.
    etransitivity; [| apply (assign_subobject_same (i, T) _ m t)].
    f_equal. now destruct (subobject (i, T) _ m t).
  - intros t v w. simpl. apply assign_subobject_twice.
Qed.


(** ** A tuple is determined by its elements *)

Lemma typed_inj (T : type) (x y : El T) : typed T x = typed T y -> x = y.
Proof.
  intros H. apply inj_pair2_eq_dec in H; [exact H | exact type_eq_dec].
Qed.

Lemma object_ext (ks : list base) :
  forall a b : object ks,
    (forall i, i < length ks -> slot ks i a = slot ks i b) -> a = b.
Proof.
  induction ks as [| k ks' IH]; intros a b H; simpl in *.
  - now destruct a, b.
  - destruct a as [[x] a'], b as [[y] b'].
    pose proof (H 0 ltac:(lia)) as H0. simpl in H0.
    injection H0 as H0. apply typed_inj in H0. subst y.
    f_equal. apply IH. intros i Hi. apply (H (S i)). lia.
Qed.

(** X4: two tuples of the same type that read the same at every position are
    the same value: a tuple has no state besides its elements. *)
Theorem tuple_extensionality (Ts : list type) (a b : tuple Ts) :
  (forall i, i < length Ts -> read i Ts a = read i Ts b) -> a = b.
Proof.
  intros H. apply object_ext. intros i Hi.
  rewrite tuple_bases_length in Hi.
  destruct (read_slot Ts i a) as [<- _].
  destruct (read_slot Ts i b) as [<- _].
  now apply H.
Qed.

(** ** When the constructors are well-formed, and what they store *)

Lemma init_bases_well_formed (ks : list base) :
  forall Us : list (cpp_type type),
    init_bases ks Us <> None <->
    Forall2 (fun k U => direct_init (snd k) U <> None) ks Us.
Proof.
  induction ks as [| k ks' IH]; intros [| U Us']; simpl.
  - split; [constructor | discriminate].
  - split; [intros H; now contradiction H | intros H; inversion H].
  - split; [intros H; now contradiction H | intros H; inversion H].
  - unfold tuple_leaf_ctor. split.
    + intros H. destruct (direct_init (snd k) U) as [init |] eqn:Hinit;
        [| now contradiction H].
      simpl in H. constructor.
      * rewrite Hinit. discriminate.
      * apply IH. intros E. rewrite E in H. now contradiction H.
    + intros H. inversion H as [| ? ? ? ? Hk Hks']; subst.
      destruct (direct_init (snd k) U) as [init |]; [| now contradiction Hk].
      apply IH in Hks'. simpl.
      destruct (init_bases ks' Us'); [discriminate | now contradiction Hks'].
Qed.

Lemma Forall2_bases_inv {P : type -> cpp_type type -> Prop}
    (Ts : list type) :
  forall (Us : list (cpp_type type)) (s : nat),
    Forall2 (fun k U => P (snd k) U) (combine (seq s (length Ts)) Ts) Us ->
    Forall2 P Ts Us.
Proof.
  induction Ts as [| T Ts' IH]; intros Us s Hall; simpl in Hall;
    inversion Hall; subst.
  - constructor.
  - constructor; [assumption |]. eapply IH. eassumption.
Qed.




Lemma Forall_bases {P : type -> Prop} (Ts : list type) :
  Forall (fun k : base => P (snd k))
         (base_classes (index_sequence_for Ts) Ts) <->
  Forall P Ts.
Proof.
  rewrite !Forall_forall. split.
  - intros H T Hin. apply In_nth_error in Hin. destruct Hin as [i Hi].
    apply (H (0 + i, T)).
    exact (nth_error_In _ _ (nth_error_bases Ts 0 i T Hi)).
  - intros H [I T] Hin. simpl. apply H.
    exact (in_combine_r _ _ _ _ Hin).
Qed.

Lemma default_bases_well_formed (ks : list base) :
  default_bases ks <> None <->
  Forall (fun k => default_init (snd k) <> None) ks.
Proof.
  induction ks as [| k ks' IH]; simpl.
  - split; [constructor | discriminate].
  - unfold tuple_leaf_default. split.
    + intros H. destruct (default_init (snd k)) as [d |] eqn:Hd;
        [| now contradiction H].
      simpl in H. constructor.
      * rewrite Hd. discriminate.
      * apply IH. intros E. rewrite E in H. now contradiction H.
    + intros H. inversion H as [| ? ? Hk Hks']; subst.
      destruct (default_init (snd k)) as [d |]; [| now contradiction Hk].
      apply IH in Hks'. simpl.
      destruct (default_bases ks'); [discriminate | now contradiction Hks'].
Qed.

(** X7: the default constructor of a tuple is well-formed exactly when every
    element type has a default constructor; the empty tuple always has
    one. *)
Theorem default_constructor_well_formed_iff (Ts : list type) :
  (tuple_default Ts <> None <-> Forall (fun T => default_init T <> None) Ts) /\
  tuple_default [] = Some tt.
Proof.
  split; [| reflexivity].
  unfold tuple_default, tuple_impl_default.
  etransitivity; [apply default_bases_well_formed |].
  exact (Forall_bases (P := fun T => default_init T <> None) Ts).
Qed.

(** ** The copy and move constructors *)


Lemma copy_bases_elementwise (ks : list base) :
  Forall (fun k => direct_init (snd k) (const_lvalue (snd k)) <> None) ks ->
  exists c, copy_bases ks = Some c /\
    forall i k init,
      nth_error ks i = Some k ->
      direct_init (snd k) (const_lvalue (snd k)) = Some init ->
      forall o, exists x : El (snd k),
        slot ks i o = Some (typed (snd k) x) /\
        slot ks i (c o) = Some (typed (snd k) (init x)).
Proof.
  induction 1 as [| k ks' Hk Hks' IH]; simpl.
  - eexists. split; [reflexivity |]. intros [| i] k init H; discriminate.
  - destruct IH as [rest [Hrest Hslot]].
    unfold tuple_leaf_copy.
    destruct (direct_init (snd k) (const_lvalue (snd k))) as [init |] eqn:Hinit;
      [| now contradiction Hk].
    simpl. rewrite Hrest. simpl.
    eexists. split; [reflexivity |].
    intros [| i'] k0 init0 Hnk Hinit0 o; simpl in *.
    + injection Hnk as <-. rewrite Hinit in Hinit0. injection Hinit0 as <-.
      exists (value (fst o)). split; reflexivity.
    + exact (Hslot i' k0 init0 Hnk Hinit0 (snd o)).
Qed.

Lemma tuple_leaf_from_rvalue_well_formed (I : nat) (T : type) :
  tuple_leaf_from_rvalue I T <> None <->
  direct_init T (xvalue T) <> None \/
  direct_init T (const_lvalue T) <> None.
Proof.
  unfold tuple_leaf_from_rvalue, tuple_leaf_move, tuple_leaf_copy.
  destruct (direct_init T (xvalue T)) as [mv |]; simpl.
  - split; [intros _; left |]; discriminate.
  - destruct (direct_init T (const_lvalue T)) as [cp |]; simpl.
    + split; [intros _; right |]; discriminate.
    + split; [intros H; now contradiction H |].
      intros [H | H]; now contradiction H.
Qed.


Lemma move_bases_elementwise (ks : list base) :
  Forall (fun k => direct_init (snd k) (xvalue (snd k)) <> None) ks ->
  exists c, move_bases ks = Some c /\
    forall i k init,
      nth_error ks i = Some k ->
      direct_init (snd k) (xvalue (snd k)) = Some init ->
      forall o, exists x : El (snd k),
        slot ks i o = Some (typed (snd k) x) /\
        slot ks i (c o) = Some (typed (snd k) (init x)).
Proof.
  induction 1 as [| k ks' Hk Hks' IH]; simpl.
  - eexists. split; [reflexivity |]. intros [| i] k init H; discriminate.
  - destruct IH as [rest [Hrest Hslot]].
    unfold tuple_leaf_from_rvalue, tuple_leaf_move.
    destruct (direct_init (snd k) (xvalue (snd k))) as [init |] eqn:Hinit;
      [| now contradiction Hk].
    simpl. rewrite Hrest. simpl.
    eexists. split; [reflexivity |].
    intros [| i'] k0 init0 Hnk Hinit0 o; simpl in *.
    + injection Hnk as <-. rewrite Hinit in Hinit0. injection Hinit0 as <-.
      exists (value (fst o)). split; reflexivity.
    + exact (Hslot i' k0 init0 Hnk Hinit0 (snd o)).
Qed.

Lemma move_bases_fallback (ks : list base) :
  Forall (fun k => direct_init (snd k) (xvalue (snd k)) <> None \/
                   direct_init (snd k) (const_lvalue (snd k)) <> None) ks ->
  exists c, move_bases ks = Some c /\
    forall i k init,
      nth_error ks i = Some k ->
      direct_init (snd k) (xvalue (snd k)) = None ->
      direct_init (snd k) (const_lvalue (snd k)) = Some init ->
      forall o, exists x : El (snd k),
        slot ks i o = Some (typed (snd k) x) /\
        slot ks i (c o) = Some (typed (snd k) (init x)).
Proof.
  induction 1 as [| k ks' Hk Hks' IH]; simpl.
  - eexists. split; [reflexivity |]. intros [| i] k init H; discriminate.
  - destruct IH as [rest [Hrest Hslot]].
    pose proof (proj2 (tuple_leaf_from_rvalue_well_formed (fst k) (snd k)) Hk)
      as Hwf.
    destruct (tuple_leaf_from_rvalue (fst k) (snd k)) as [leaf |] eqn:Hleaf;
      [| now contradiction Hwf].
    simpl. rewrite Hrest. simpl.
    eexists. split; [reflexivity |].
    intros [| i'] k0 init0 Hnk Hmv Hcp o; simpl in *.
    + injection Hnk as <-.
      unfold tuple_leaf_from_rvalue, tuple_leaf_move, tuple_leaf_copy in Hleaf.
      rewrite Hmv, Hcp in Hleaf. simpl in Hleaf. injection Hleaf as <-.
      exists (value (fst o)). split; reflexivity.
    + exact (Hslot i' k0 init0 Hnk Hmv Hcp (snd o)).
Qed.


(** X9: copy construction propagates slot by slot: position [i] of the copy
    holds what the copy constructor of the type declared at [i] makes of
    position [i] of the source. *)
Theorem copy_constructor_elementwise (Ts : list type) :
  Forall (fun T => direct_init T (const_lvalue T) <> None) Ts ->
  exists copy : tuple Ts -> tuple Ts,
    tuple_copy Ts = Some copy /\
    forall i T init,
      nth_error Ts i = Some T ->
      direct_init T (const_lvalue T) = Some init ->
      forall t, exists x : El T,
        read i Ts t = Some (typed T x) /\
        read i Ts (copy t) = Some (typed T (init x)).
Proof.
  intros Hall.
  destruct (copy_bases_elementwise (base_classes (index_sequence_for Ts) Ts))
    as [c [Hc Hslot]].
  - exact (proj2 (Forall_bases
             (P := fun T => direct_init T (const_lvalue T) <> None) Ts) Hall).
  - exists c. split; [exact Hc |].
    intros i T init HT Hinit t.
    destruct (Hslot i (0 + i, T) init (nth_error_bases Ts 0 i T HT) Hinit t)
      as [x [Hx Hcx]].
    exists x.
    destruct (read_slot Ts i t) as [-> _].
    destruct (read_slot Ts i (c t)) as [-> _].
    split; [exact Hx | exact Hcx].
Qed.

(** X10: move construction propagates slot by slot in the same way, through the
    constructor each element type selects for a [T&&]. *)
Theorem move_constructor_elementwise (Ts : list type) :
  Forall (fun T => direct_init T (xvalue T) <> None) Ts ->
  exists move : tuple Ts -> tuple Ts,
    tuple_move Ts = Some move /\
    forall i T init,
      nth_error Ts i = Some T ->
      direct_init T (xvalue T) = Some init ->
      forall t, exists x : El T,
        read i Ts t = Some (typed T x) /\
        read i Ts (move t) = Some (typed T (init x)).
Proof.
  intros Hall.
  destruct (move_bases_elementwise (base_classes (index_sequence_for Ts) Ts))
    as [c [Hc Hslot]].
  - exact (proj2 (Forall_bases
             (P := fun T => direct_init T (xvalue T) <> None) Ts) Hall).
  - exists c. split; [exact Hc |].
    intros i T init HT Hinit t.
    destruct (Hslot i (0 + i, T) init (nth_error_bases Ts 0 i T HT) Hinit t)
      as [x [Hx Hcx]].
    exists x.
    destruct (read_slot Ts i t) as [-> _].
    destruct (read_slot Ts i (c t)) as [-> _].
    split; [exact Hx | exact Hcx].
Qed.

(** X19: an element type that cannot be constructed from a [T&&] but can
    from a [const T&] does not prevent moving the tuple: its slot in the
    new tuple is initialised by its copy constructor from the slot of the
    source. *)
Theorem move_falls_back_to_copy (Ts : list type) :
  Forall (fun T => direct_init T (xvalue T) <> None \/
                   direct_init T (const_lvalue T) <> None) Ts ->
  exists move : tuple Ts -> tuple Ts,
    tuple_move Ts = Some move /\
    forall i T init,
      nth_error Ts i = Some T ->
      direct_init T (xvalue T) = None ->
      direct_init T (const_lvalue T) = Some init ->
      forall t, exists x : El T,
        read i Ts t = Some (typed T x) /\
        read i Ts (move t) = Some (typed T (init x)).
Proof.
  intros Hall.
  destruct (move_bases_fallback (base_classes (index_sequence_for Ts) Ts))
    as [c [Hc Hslot]].
  - exact (proj2 (Forall_bases
             (P := fun T => direct_init T (xvalue T) <> None \/
                            direct_init T (const_lvalue T) <> None) Ts) Hall).
  - exists c. split; [exact Hc |].
    intros i T init HT Hmv Hcp t.
    destruct (Hslot i (0 + i, T) init (nth_error_bases Ts 0 i T HT) Hmv Hcp t)
      as [x [Hx Hcx]].
    exists x.
    destruct (read_slot Ts i t) as [-> _].
    destruct (read_slot Ts i (c t)) as [-> _].
    split; [exact Hx | exact Hcx].
Qed.

Lemma copy_bases_identity (ks : list base) :
  Forall (fun k => copy_initialises (snd k) (const_lvalue (snd k))) ks ->
  exists c, copy_bases ks = Some c /\ forall o, c o = o.
Proof.
  induction 1 as [| k ks' Hk Hks' IH]; simpl.
  - eexists. split; [reflexivity |]. now intros [].
  - destruct IH as [rest [Hrest Hid]].
    destruct Hk as [init [Hinit Hcopy]].
    unfold tuple_leaf_copy. rewrite Hinit. simpl. rewrite Hrest. simpl.
    eexists. split; [reflexivity |].
    intros [[x] o']. simpl. rewrite Hid. f_equal. f_equal.
    exact (typed_inj (snd k) (init x) x (Hcopy x)).
Qed.

(** X11: when the copy constructor of every element type yields an equal value,
    the copy of a tuple is the same value as the source. *)
Theorem copy_preserves_value (Ts : list type) :
  Forall (fun T => copy_initialises T (const_lvalue T)) Ts ->
  exists copy : tuple Ts -> tuple Ts,
    tuple_copy Ts = Some copy /\
    forall t, copy t = t.
Proof.
  intros Hall.
  apply copy_bases_identity.
  exact (proj2 (Forall_bases
           (P := fun T => copy_initialises T (const_lvalue T)) Ts) Hall).
Qed.

(** ** When the comparison is well-formed *)

Lemma tuple_equal_impl_comparable (Ts : list type) (Is : list nat) :
  tuple_equal_impl Ts Is <> None ->
  forall I T, In I Is -> nth_error Ts I = Some T -> op_eq T <> None.
Proof.
  induction Is as [| I0 Is' IH]; simpl; intros H I T Hin Hnth.
  - destruct Hin.
  - destruct Hin as [<- | Hin].
    + destruct (get_resolves Ts I0 T Hnth) as [m [_ [Hc _]]].
      rewrite Hc in H. simpl in H.
      destruct (op_eq T); [discriminate | now contradiction H].
    + apply (IH ltac:(
        intros E; rewrite E in H;
        destruct (get_const I0 Ts) as [g |]; simpl in H;
        [destruct (op_eq (projT1 g)); simpl in H |];
        now contradiction H) I T Hin Hnth).
Qed.

Lemma tuple_eq_comparable (Ts : list type) :
  tuple_eq Ts <> None -> Forall (fun T => op_eq T <> None) Ts.
Proof.
  intros H. apply Forall_forall. intros T Hin.
  apply In_nth_error in Hin. destruct Hin as [i Hi].
  apply (tuple_equal_impl_comparable Ts _ H i T); [| exact Hi].
  apply in_seq. split; [lia |]. simpl.
  apply nth_error_Some. rewrite Hi. discriminate.
Qed.

(** X12: [a == b] is well-formed exactly when [a] and [b] are tuples of the same
    type sequence and every element type has [==]. *)
Theorem comparison_well_formed_iff (Ts Ts' : list type) :
  (tuple_eq Ts <> None <-> Forall (fun T => op_eq T <> None) Ts) /\
  (operator_eq Ts Ts' <> None <->
   Ts = Ts' /\ Forall (fun T => op_eq T <> None) Ts).
Proof.
  assert (tuple_eq Ts <> None <-> Forall (fun T => op_eq T <> None) Ts)
    as Hwf.
  { split; [apply tuple_eq_comparable |].
    intros Hall. destruct (tuple_eq_spec Ts Hall) as [eq [-> _]].
    discriminate. }
  split; [exact Hwf |].
  unfold operator_eq.
  destruct (list_eq_dec type_eq_dec Ts Ts') as [e | n].
  - split.
    + intros H. split; [exact e |]. apply Hwf.
      intros E. rewrite E in H. now contradiction H.
    + intros [_ Hall]. apply Hwf in Hall.
      destruct (tuple_eq Ts); [discriminate | now contradiction Hall].
  - split; [intros H; now contradiction H | intros [e _]; contradiction].
Qed.

(** ** The comparison inherits the properties of the element comparisons *)

Lemma compare_at_element (Ts : list type)
    (P : forall T, (El T -> El T -> bool) -> Prop) (i : nat) :
  Forall (fun T => exists cmp, op_eq T = Some cmp /\ P T cmp) Ts ->
  i < length Ts ->
  exists T cmp (g : tuple Ts -> El T),
    nth_error Ts i = Some T /\
    op_eq T = Some cmp /\ P T cmp /\
    (forall a b, compare_at i Ts a b = Some (cmp (g a) (g b))) /\
    (forall t, read_const i Ts t = Some (typed T (g t))).
Proof.
  intros Hall Hi.
  destruct (nth_error Ts i) as [T |] eqn:Hnth;
    [| apply nth_error_None in Hnth; lia].
  destruct (proj1 (Forall_forall _ Ts) Hall T (nth_error_In _ _ Hnth))
    as [cmp [Hcmp HP]].
  destruct (compare_at_resolves Ts i T cmp Hnth Hcmp) as [g [_ [Hread Hat]]].
  exists T, cmp, g. repeat split; assumption.
Qed.

Lemma Forall_comparable (Ts : list type)
    (P : forall T, (El T -> El T -> bool) -> Prop) :
  Forall (fun T => exists cmp, op_eq T = Some cmp /\ P T cmp) Ts ->
  Forall (fun T => op_eq T <> None) Ts.
Proof.
  apply Forall_impl. intros T [cmp [-> _]]. discriminate.
Qed.

(** X13: when [==] is symmetric on every element type, it is symmetric on
    tuples. *)
Theorem equality_symmetric (Ts : list type) :
  Forall (fun T => exists cmp, op_eq T = Some cmp /\
                               forall x y, cmp x y = cmp y x) Ts ->
  exists eq : tuple Ts -> tuple Ts -> bool,
    tuple_eq Ts = Some eq /\ forall a b, eq a b = eq b a.
Proof.
  intros Hsym.
  destruct (tuple_eq_spec Ts (Forall_comparable Ts _ Hsym)) as [eq [Heq Hspec]].
  exists eq. split; [exact Heq |].
  assert (forall a b, eq a b = true -> eq b a = true) as Himp.
  { intros a b H. apply Hspec. intros i Hi.
    pose proof (proj1 (Hspec a b) H i Hi) as Hab.
    destruct (compare_at_element Ts _ i Hsym Hi)
      as [T [cmp [g [_ [_ [Hxy [Hat _]]]]]]].
    rewrite Hat in *. now rewrite Hxy. }
  intros a b. apply eq_true_iff_eq. split; apply Himp.
Qed.

(** X14: when [==] is transitive on every element type, it is transitive on
    tuples. *)
Theorem equality_transitive (Ts : list type) :
  Forall (fun T => exists cmp, op_eq T = Some cmp /\
                               forall x y z, cmp x y = true ->
                                             cmp y z = true ->
                                             cmp x z = true) Ts ->
  exists eq : tuple Ts -> tuple Ts -> bool,
    tuple_eq Ts = Some eq /\
    forall a b c, eq a b = true -> eq b c = true -> eq a c = true.
Proof.
  intros Htrans.
  destruct (tuple_eq_spec Ts (Forall_comparable Ts _ Htrans))
    as [eq [Heq Hspec]].
  exists eq. split; [exact Heq |].
  intros a b c Hab Hbc. apply Hspec. intros i Hi.
  pose proof (proj1 (Hspec a b) Hab i Hi) as Hab_i.
  pose proof (proj1 (Hspec b c) Hbc i Hi) as Hbc_i.
  destruct (compare_at_element Ts _ i Htrans Hi)
    as [T [cmp [g [_ [_ [Hxyz [Hat _]]]]]]].
  rewrite Hat in *. f_equal.
  injection Hab_i as Hab_i. injection Hbc_i as Hbc_i.
  exact (Hxyz _ _ _ Hab_i Hbc_i).
Qed.

(** X15: when [==] on every element type holds exactly between equal values,
    two tuples compare equal exactly when they are the same value. *)
Theorem equality_decides_identity (Ts : list type) :
  Forall (fun T => exists cmp, op_eq T = Some cmp /\
                               forall x y, cmp x y = true <-> x = y) Ts ->
  exists eq : tuple Ts -> tuple Ts -> bool,
    tuple_eq Ts = Some eq /\ forall a b, eq a b = true <-> a = b.
Proof.
  intros Hdec.
  destruct (tuple_eq_spec Ts (Forall_comparable Ts _ Hdec)) as [eq [Heq Hspec]].
  exists eq. split; [exact Heq |].
  intros a b. rewrite Hspec. split.
  - intros H. apply object_ext. intros i Hi.
    rewrite tuple_bases_length in Hi.
    destruct (compare_at_element Ts _ i Hdec Hi)
      as [T [cmp [g [_ [_ [Hxy [Hat Hread]]]]]]].
    specialize (H i Hi). rewrite Hat in H. injection H as H.
    apply Hxy in H.
    destruct (read_slot Ts i a) as [_ <-].
    destruct (read_slot Ts i b) as [_ <-].
    rewrite !Hread. now rewrite H.
  - intros <- i Hi.
    destruct (compare_at_element Ts _ i Hdec Hi)
      as [T [cmp [g [_ [_ [Hxy [Hat _]]]]]]].
    rewrite Hat. f_equal. now apply Hxy.
Qed.

(** ** Comparison after an assignment *)


(** ** make_tuple: when it is well-formed, and the shape of its result *)

Lemma Forall2_decay_inv {P : type -> cpp_type type -> Prop}
    (Us : list (cpp_type type)) :
  Forall2 P (map decay_t Us) Us -> Forall (fun U => P (decay_t U) U) Us.
Proof.
  induction Us as [| U Us' IH]; simpl; intros H; inversion H; subst.
  - constructor.
  - constructor; [assumption |]. now apply IH.
Qed.

(** X17: [make_tuple] is well-formed exactly when every argument can initialise
    an object of the type it decays to. *)
Theorem make_tuple_well_formed_iff (Us : list (cpp_type type)) :
  make_tuple Us <> None <->
  Forall (fun U => direct_init (decay_t U) U <> None) Us.
Proof.
  unfold make_tuple, tuple_ctor, tuple_impl_ctor.
  cbv zeta. rewrite length_map, Nat.eqb_refl.
  split.
  - intros H.
    apply (Forall2_decay_inv (P := fun T U => direct_init T U <> None)).
    apply (Forall2_bases_inv (P := fun T U => direct_init T U <> None)
             (map decay_t Us) Us 0).
    apply init_bases_well_formed.
    intros E. unfold base_classes, index_sequence_for in H.
    rewrite E in H. now contradiction H.
  - intros Hall.
    pose proof (Forall2_bases (P := fun T U => direct_init T U <> None)
                  (map decay_t Us) Us 0
                  (Forall2_decay (P := fun T U => direct_init T U <> None)
                     Us Hall)) as Hb.
    apply init_bases_well_formed in Hb.
    unfold base_classes, index_sequence_for.
    destruct (init_bases _ Us); [discriminate | now contradiction Hb].
Qed.

(** X18: the tuple type [make_tuple] returns has as many elements as there are
    arguments, and its element type at each position is the decayed type
    of the argument at that position. *)
Theorem make_tuple_shape (Us : list (cpp_type type)) :
  make_tuple Us <> None ->
  exists r, make_tuple Us = Some r /\
    tuple_size_v (tuple_of (projT1 r)) = Some (length Us) /\
    forall i, tuple_element_t i (tuple_of (projT1 r)) =
              option_map decay_t (nth_error Us i).
Proof.
  intros H. unfold make_tuple in *.
  destruct (tuple_ctor (map decay_t Us) Us) as [ctor |];
    [| now contradiction H].
  simpl. eexists. split; [reflexivity |]. simpl. split.
  - unfold tuple_size_v. simpl. unfold sizeof_pack.
    now rewrite length_map.
  - intros i. rewrite tuple_element_pack_nth_error. apply nth_error_map.
Qed.

End FurtherProperties.

(** * The demonstration program and concrete instances *)

Import Main.

(** main.cpp prints 42, 3.14 and a, and then that [t] and [t2] differ. *)
Example main_get_0 : (x <- t ;; read 0 _ x) = Some (typed Int 42%Z).
Proof. reflexivity. Qed.

Example main_get_1 : (x <- t ;; read 1 _ x) = Some (typed Double 3.14%float).
Proof. reflexivity. Qed.

Example main_get_2 : (x <- t ;; read 2 _ x) = Some (typed Char "a"%char).
Proof. reflexivity. Qed.

Example main_t2_type : option_map (@projT1 _ _) t2 = Some [Int; Double; Char].
Proof. reflexivity. Qed.

Example main_t_equals_t2 : t_equals_t2 = Some false.
Proof. vm_compute. reflexivity. Qed.

(** A tuple built from the same values as [t] is equal to it. *)
Example main_t_equals_t3 :
  (a <- t ;;
   ctor <- tuple_ctor [Int; Double; Char] [plain Int; plain Double; plain Char] ;;
   eq <- operator_eq [Int; Double; Char] [Int; Double; Char] ;;
   Some (eq a (ctor (42%Z, (3.14%float, ("a"%char, tt)))))) = Some true.
Proof. vm_compute. reflexivity. Qed.

(** Tuples of different type sequences cannot be compared. *)
Example operator_eq_mismatch : operator_eq [Int; Double] [Int; Char] = None.
Proof. reflexivity. Qed.

(** Two positions of the same type are kept apart. *)
Example same_type_positions :
  (ctor <- tuple_ctor [Int; Int] [plain Int; plain Int] ;;
   Some (read 0 _ (ctor (1%Z, (2%Z, tt))), read 1 _ (ctor (1%Z, (2%Z, tt)))))
  = Some (Some (typed Int 1%Z), Some (typed Int 2%Z)).
Proof. reflexivity. Qed.

(** The reflexivity of [==] on tuples rests on that of the elements: a
    [tuple<double>] holding a NaN is not equal to itself. *)
Example nan_tuple_not_reflexive :
  (ctor <- tuple_ctor [Double] [plain Double] ;;
   eq <- tuple_eq [Double] ;;
   Some (eq (ctor (nan, tt)) (ctor (nan, tt)))) = Some false.
Proof. vm_compute. reflexivity. Qed.

(** A wrong number of constructor arguments is rejected. *)
Example arity_mismatch :
  tuple_ctor [Int; Double; Char] [plain Int; plain Double] = None.
Proof. reflexivity. Qed.

(** ** Instances of the theorems at [tuple<int, double, char>] *)

Lemma positional_fidelity_witness :
  Forall2 copy_initialises demo_types demo_args /\
  NoDup (base_classes (index_sequence_for demo_types) demo_types) /\
  exists ctor : args demo_args -> tuple demo_types,
    tuple_ctor demo_types demo_args = Some ctor /\
    forall (a : args demo_args) (i : nat),
      i < length demo_types ->
      exists v, arg_nth i demo_args a = Some v /\
                read i demo_types (ctor a) = Some v.
Proof.
  assert (Forall2 copy_initialises demo_types demo_args) as H.
  { repeat constructor; (exists (fun v => v); split; [reflexivity |]);
      intros v; reflexivity. }
  split; [exact H |].
  exact (positional_fidelity demo_types demo_args H).
Defined.

Lemma equality_is_conjunction_witness :
  Forall (fun T => op_eq T <> None) demo_types /\
  exists eq : tuple demo_types -> tuple demo_types -> bool,
    tuple_eq demo_types = Some eq /\
    (forall a b, eq a b = true <->
                 forall i, i < length demo_types ->
                           compare_at i demo_types a b = Some true) /\
    (forall a i T r cmp v,
        get i demo_types = Some (existT _ T r) ->
        op_eq T = Some cmp ->
        cmp (load r a) v = false ->
        eq a (store r v a) = false) /\
    (demo_types = [] -> forall a b, eq a b = true).
Proof.
  assert (Forall (fun T => op_eq T <> None) demo_types) as H.
  { repeat constructor; simpl; discriminate. }
  split; [exact H |].
  exact (equality_is_conjunction demo_types H).
Defined.

Lemma out_of_range_rejected_witness :
  ~ (0 <= 3 < length demo_types) /\
  tuple_element_t 3 (tuple_of demo_types) = None /\
  get 3 demo_types = None /\
  get_const 3 demo_types = None /\
  (forall t : tuple demo_types, read 3 demo_types t = None).
Proof.
  assert (~ (0 <= 3 < length demo_types)) as H by (simpl; lia).
  split; [exact H |].
  exact (out_of_range_rejected demo_types 3 H).
Defined.

Lemma make_tuple_inference_witness :
  Forall (fun U => copy_initialises (decay_t U) U) demo_args /\
  exists ctor : args demo_args -> tuple (map decay_t demo_args),
    make_tuple demo_args = Some (existT _ (map decay_t demo_args) ctor) /\
    map decay_t demo_args = map unqualified demo_args /\
    forall (a : args demo_args) (i : nat),
      i < length demo_args ->
      exists v, arg_nth i demo_args a = Some v /\
                read i (map decay_t demo_args) (ctor a) = Some v.
Proof.
  assert (Forall (fun U => copy_initialises (decay_t U) U) demo_args) as H.
  { repeat constructor; (exists (fun v => v); split; [reflexivity |]);
      intros v; reflexivity. }
  split; [exact H |].
  exact (make_tuple_inference demo_args H).
Defined.

Lemma mutation_through_get_witness :
  2 < length demo_types /\
  exists (T : type) (r : lvalue (tuple demo_types) (El T)),
    nth_error demo_types 2 = Some T /\
    get 2 demo_types = Some (existT _ T r) /\
    forall (t : tuple demo_types) (v : El T),
      load r (store r v t) = v /\
      read 2 demo_types (store r v t) = Some (typed T v) /\
      read_const 2 demo_types (store r v t) = Some (typed T v).
Proof.
  assert (2 < length demo_types) as H by (simpl; lia).
  split; [exact H |].
  exact (mutation_through_get demo_types 2 H).
Defined.

Lemma equality_reflexive_witness :
  Forall (fun T => exists cmp, op_eq T = Some cmp /\
                               forall x, cmp x x = true) [Int; Char; Int] /\
  exists eq : tuple [Int; Char; Int] -> tuple [Int; Char; Int] -> bool,
    tuple_eq [Int; Char; Int] = Some eq /\ forall a, eq a a = true.
Proof.
  assert (Forall (fun T => exists cmp, op_eq T = Some cmp /\
                                       forall x, cmp x x = true)
                 [Int; Char; Int]) as H.
  { repeat constructor.
    - exists Z.eqb. split; [reflexivity | exact Z.eqb_refl].
    - exists Ascii.eqb. split; [reflexivity | exact Ascii.eqb_refl].
    - exists Z.eqb. split; [reflexivity | exact Z.eqb_refl]. }
  split; [exact H |].
  exact (equality_reflexive [Int; Char; Int] H).
Defined.

Lemma default_construction_witness :
  Forall (fun T => @default_init Resources.resource_types T <> None)
         [Resources.Text; Resources.Text] /\
  Forall (fun T => exists d,
              @default_init Resources.resource_types T = Some (Some d))
         [Resources.Text; Resources.Text] /\
  exists t : partial_tuple (ET := Resources.resource_types)
               [Resources.Text; Resources.Text],
    tuple_default (ET := Resources.resource_types)
      [Resources.Text; Resources.Text] = Some t /\
    (forall i, i < length [Resources.Text; Resources.Text] ->
       exists T s, nth_error [Resources.Text; Resources.Text] i = Some T /\
                   @default_init Resources.resource_types T = Some s /\
                   state_at (ET := Resources.resource_types) i _ t =
                     Some (option_map
                             (typed (ET := Resources.resource_types) T) s)) /\
    exists o : tuple (ET := Resources.resource_types)
                 [Resources.Text; Resources.Text],
      determinate (ET := Resources.resource_types) _ t = Some o /\
      forall i, i < length [Resources.Text; Resources.Text] ->
        exists T d, nth_error [Resources.Text; Resources.Text] i = Some T /\
                    @default_init Resources.resource_types T = Some (Some d) /\
                    read (ET := Resources.resource_types) i _ o =
                      Some (typed (ET := Resources.resource_types) T d).
Proof.
  assert (Forall (fun T => @default_init Resources.resource_types T <> None)
                 [Resources.Text; Resources.Text]) as H.
  { repeat constructor; simpl; discriminate. }
  assert (Forall (fun T => exists d,
                      @default_init Resources.resource_types T = Some (Some d))
                 [Resources.Text; Resources.Text]) as Hdet.
  { repeat constructor; exists []; reflexivity. }
  split; [exact H |]. split; [exact Hdet |].
  destruct (default_construction (ET := Resources.resource_types) _ H)
    as [t [Ht [Hstate Hvalue]]].
  exists t. split; [exact Ht |]. split; [exact Hstate |].
  exact (Hvalue Hdet).
Defined.

(** In a default-constructed [tuple<Text, int>] the string is empty and the
    [int] indeterminate. *)
Example default_text_count_tuple :
  (t <- tuple_default (ET := Resources.resource_types)
          [Resources.Text; Resources.Count] ;;
   Some (state_at (ET := Resources.resource_types) 0 _ t,
         state_at (ET := Resources.resource_types) 1 _ t)) =
  Some (Some (Some (typed (ET := Resources.resource_types) Resources.Text [])),
        Some None).
Proof. reflexivity. Qed.

(** C9, as the claim states it, fails at [tuple<int>]: [int] is default
    constructible, and the default constructor leaves the element
    indeterminate, so that no value is there to be read. *)
Lemma default_construction_counterexample :
  Forall (fun T => default_init T <> None) [Int] /\
  ~ (exists t : partial_tuple [Int],
        tuple_default [Int] = Some t /\
        forall i, i < length [Int] ->
                  exists v, state_at i [Int] t = Some (Some v)).
Proof.
  split.
  - repeat constructor. simpl. discriminate.
  - intros [t [Ht Hval]].
    destruct (Hval 0 ltac:(simpl; lia)) as [v Hv].
    vm_compute in Ht. injection Ht as <-.
    vm_compute in Hv. discriminate.
Qed.

(** A [tuple<Text, Text>] is fully determined by default construction. *)
Example default_text_tuple :
  (t <- tuple_default (ET := Resources.resource_types)
          [Resources.Text; Resources.Text] ;;
   o <- determinate (ET := Resources.resource_types) _ t ;;
   Some (read (ET := Resources.resource_types) 1 _ o)) =
  Some (Some (typed (ET := Resources.resource_types) Resources.Text [])).
Proof. reflexivity. Qed.


(** ** Instances of the further properties *)

(** [tuple<int, int> t{c, n}] with an [unsigned char] [c]: the first slot
    holds the code of [c]. *)
Example promoting_constructor :
  (ctor <- tuple_ctor (ET := Promotion.integral_types)
             [Promotion.Int; Promotion.Int]
             [plain Promotion.UChar; plain Promotion.Int] ;;
   Some (read 0 _ (ctor ("a"%char, (5%Z, tt))))) =
  Some (Some (typed (ET := Promotion.integral_types) Promotion.Int 97%Z)).
Proof. reflexivity. Qed.


Lemma assignment_through_get_laws_witness :
  1 < length demo_types /\
  exists (T : type) (r : lvalue (tuple demo_types) (El T)),
    get 1 demo_types = Some (existT _ T r) /\
    (forall t : tuple demo_types, store r (load r t) t = t) /\
    (forall (t : tuple demo_types) (v w : El T),
        store r v (store r w t) = store r v t).
Proof.
  assert (1 < length demo_types) as H by (simpl; lia).
  split; [exact H |].
  exact (assignment_through_get_laws demo_types 1 H).
Defined.


Lemma tuple_extensionality_witness :
  (forall i, i < length [Int; Int] ->
     read i [Int; Int] one_two = read i [Int; Int] one_two_copy) /\
  one_two = one_two_copy.
Proof.
  assert (forall i, i < length [Int; Int] ->
            read i [Int; Int] one_two = read i [Int; Int] one_two_copy) as H.
  { intros [| [| i]] Hi; [reflexivity | reflexivity | simpl in Hi; lia]. }
  split; [exact H |].
  exact (tuple_extensionality [Int; Int] one_two one_two_copy H).
Defined.

Lemma copy_constructor_elementwise_witness :
  Forall (fun T => direct_init T (const_lvalue T) <> None) demo_types /\
  exists copy : tuple demo_types -> tuple demo_types,
    tuple_copy demo_types = Some copy /\
    forall i T init,
      nth_error demo_types i = Some T ->
      direct_init T (const_lvalue T) = Some init ->
      forall t, exists x : El T,
        read i demo_types t = Some (typed T x) /\
        read i demo_types (copy t) = Some (typed T (init x)).
Proof.
  assert (Forall (fun T => direct_init T (const_lvalue T) <> None) demo_types)
    as H.
  { repeat constructor; simpl; discriminate. }
  split; [exact H |].
  exact (copy_constructor_elementwise demo_types H).
Defined.

Lemma move_constructor_elementwise_witness :
  Forall (fun T => direct_init T (xvalue T) <> None) demo_types /\
  exists move : tuple demo_types -> tuple demo_types,
    tuple_move demo_types = Some move /\
    forall i T init,
      nth_error demo_types i = Some T ->
      direct_init T (xvalue T) = Some init ->
      forall t, exists x : El T,
        read i demo_types t = Some (typed T x) /\
        read i demo_types (move t) = Some (typed T (init x)).
Proof.
  assert (Forall (fun T => direct_init T (xvalue T) <> None) demo_types) as H.
  { repeat constructor; simpl; discriminate. }
  split; [exact H |].
  exact (move_constructor_elementwise demo_types H).
Defined.

Lemma copy_preserves_value_witness :
  Forall (fun T => copy_initialises T (const_lvalue T)) demo_types /\
  exists copy : tuple demo_types -> tuple demo_types,
    tuple_copy demo_types = Some copy /\ forall t, copy t = t.
Proof.
  assert (Forall (fun T => copy_initialises T (const_lvalue T)) demo_types)
    as H.
  { repeat constructor; (exists (fun v => v); split; [reflexivity |]);
      intros v; reflexivity. }
  split; [exact H |].
  exact (copy_preserves_value demo_types H).
Defined.

Lemma equality_symmetric_witness :
  Forall (fun T => exists cmp, op_eq T = Some cmp /\
                               forall x y, cmp x y = cmp y x)
         [Int; Char; Int] /\
  exists eq : tuple [Int; Char; Int] -> tuple [Int; Char; Int] -> bool,
    tuple_eq [Int; Char; Int] = Some eq /\ forall a b, eq a b = eq b a.
Proof.
  assert (Forall (fun T => exists cmp, op_eq T = Some cmp /\
                                       forall x y, cmp x y = cmp y x)
                 [Int; Char; Int]) as H.
  { repeat constructor.
    - exists Z.eqb. split; [reflexivity | exact Z.eqb_sym].
    - exists Ascii.eqb. split; [reflexivity | exact Ascii.eqb_sym].
    - exists Z.eqb. split; [reflexivity | exact Z.eqb_sym]. }
  split; [exact H |].
  exact (equality_symmetric [Int; Char; Int] H).
Defined.

Lemma equality_transitive_witness :
  Forall (fun T => exists cmp, op_eq T = Some cmp /\
                               forall x y z, cmp x y = true ->
                                             cmp y z = true ->
                                             cmp x z = true)
         [Int; Char; Int] /\
  exists eq : tuple [Int; Char; Int] -> tuple [Int; Char; Int] -> bool,
    tuple_eq [Int; Char; Int] = Some eq /\
    forall a b c, eq a b = true -> eq b c = true -> eq a c = true.
Proof.
  assert (Forall (fun T => exists cmp, op_eq T = Some cmp /\
                                       forall x y z, cmp x y = true ->
                                                     cmp y z = true ->
                                                     cmp x z = true)
                 [Int; Char; Int]) as H.
  { repeat constructor.
    - exists Z.eqb. split; [reflexivity |].
      intros x y z Hxy Hyz. apply Z.eqb_eq in Hxy, Hyz. apply Z.eqb_eq.
      congruence.
    - exists Ascii.eqb. split; [reflexivity |].
      intros x y z Hxy Hyz. apply Ascii.eqb_eq in Hxy, Hyz.
      apply Ascii.eqb_eq. congruence.
    - exists Z.eqb. split; [reflexivity |].
      intros x y z Hxy Hyz. apply Z.eqb_eq in Hxy, Hyz. apply Z.eqb_eq.
      congruence. }
  split; [exact H |].
  exact (equality_transitive [Int; Char; Int] H).
Defined.

Lemma equality_decides_identity_witness :
  Forall (fun T => exists cmp, op_eq T = Some cmp /\
                               forall x y, cmp x y = true <-> x = y)
         [Int; Char; Int] /\
  exists eq : tuple [Int; Char; Int] -> tuple [Int; Char; Int] -> bool,
    tuple_eq [Int; Char; Int] = Some eq /\ forall a b, eq a b = true <-> a = b.
Proof.
  assert (Forall (fun T => exists cmp, op_eq T = Some cmp /\
                                       forall x y, cmp x y = true <-> x = y)
                 [Int; Char; Int]) as H.
  { repeat constructor.
    - exists Z.eqb. split; [reflexivity | exact Z.eqb_eq].
    - exists Ascii.eqb. split; [reflexivity | exact Ascii.eqb_eq].
    - exists Z.eqb. split; [reflexivity | exact Z.eqb_eq]. }
  split; [exact H |].
  exact (equality_decides_identity [Int; Char; Int] H).
Defined.


Lemma make_tuple_shape_witness :
  make_tuple demo_args <> None /\
  exists r, make_tuple demo_args = Some r /\
    tuple_size_v (tuple_of (projT1 r)) = Some (length demo_args) /\
    forall i, tuple_element_t i (tuple_of (projT1 r)) =
              option_map decay_t (nth_error demo_args i).
Proof.
  assert (make_tuple demo_args <> None) as H by (vm_compute; discriminate).
  split; [exact H |].
  exact (make_tuple_shape demo_args H).
Defined.

(** A [tuple<Token, Text>] is moved although [Token] has a deleted move
    constructor; a [tuple<Handle>] can be moved but not copied. *)
Example move_with_deleted_element_move :
  (move <- tuple_move (ET := Resources.resource_types)
             [Resources.Token; Resources.Text] ;;
   Some (move (Leaf (ET := Resources.resource_types) (I := 0)
                 (T := Resources.Token) 2001,
               (Leaf (ET := Resources.resource_types) (I := 1)
                  (T := Resources.Text) ["a"%char], tt)))) =
  Some (Leaf (ET := Resources.resource_types) (I := 0)
          (T := Resources.Token) 2001,
        (Leaf (ET := Resources.resource_types) (I := 1)
           (T := Resources.Text) ["a"%char], tt)).
Proof. reflexivity. Qed.

Example move_only_tuple :
  (match tuple_move (ET := Resources.resource_types) [Resources.Handle] with
   | Some _ => true
   | None => false
   end,
   match tuple_copy (ET := Resources.resource_types) [Resources.Handle] with
   | Some _ => true
   | None => false
   end) = (true, false).
Proof. reflexivity. Qed.

Lemma move_falls_back_to_copy_witness :
  Forall (fun T =>
            @direct_init Resources.resource_types T
              (xvalue (ET := Resources.resource_types) T) <> None \/
            @direct_init Resources.resource_types T
              (const_lvalue (ET := Resources.resource_types) T) <> None)
         [Resources.Token; Resources.Text] /\
  exists move,
    tuple_move (ET := Resources.resource_types)
      [Resources.Token; Resources.Text] = Some move /\
    forall i T init,
      nth_error [Resources.Token; Resources.Text] i = Some T ->
      @direct_init Resources.resource_types T
        (xvalue (ET := Resources.resource_types) T) = None ->
      @direct_init Resources.resource_types T
        (const_lvalue (ET := Resources.resource_types) T) = Some init ->
      forall t, exists x,
        read (ET := Resources.resource_types) i _ t =
          Some (typed (ET := Resources.resource_types) T x) /\
        read (ET := Resources.resource_types) i _ (move t) =
          Some (typed (ET := Resources.resource_types) T (init x)).
Proof.
  assert (Forall (fun T =>
            @direct_init Resources.resource_types T
              (xvalue (ET := Resources.resource_types) T) <> None \/
            @direct_init Resources.resource_types T
              (const_lvalue (ET := Resources.resource_types) T) <> None)
            [Resources.Token; Resources.Text]) as H.
  { apply Forall_cons; [right; simpl; discriminate |].
    apply Forall_cons; [left; simpl; discriminate |].
    apply Forall_nil. }
  split; [exact H |].
  exact (move_falls_back_to_copy (ET := Resources.resource_types) _ H).
Defined.
